(** * Icarus, [Utils/Binary.py]: the Roche-potential evaluator and its solvers

    The module evaluates the Roche potential of a close binary and solves
    for equipotential radii ([Radius], [Radii]) and for the on-axis saddle
    point ([Saddle]).  The three solvers are C++ bodies inlined through
    [scipy.weave]; [Get_potential], [Get_radius], [Get_saddle] and
    [Potential] are plain Python.

    The code computes on C [double]s and Python floats.  The development is
    written once over an interface [Arith] of the operations the code uses
    and read at two instances:

    - [R_arith]: the real numbers, the idealised reading in which the
      algebraic statements of the specification are meant;
    - [b64_arith]: IEEE binary64 ([PrimFloat]), the arithmetic the C++
      bodies run on, which evaluates concrete calls.

    Statements that only follow the control flow are proved for every
    instance. *)

From stdpp Require Import list.
From Stdlib Require Import ZArith Reals Lra Floats.

(** ** The arithmetic the code uses *)

Class Arith (F : Type) := {
  of_Z : Z -> F;            (* an integer literal, promoted *)
  add : F -> F -> F;
  sub : F -> F -> F;
  mul : F -> F -> F;
  div : F -> F -> F;
  opp : F -> F;             (* unary minus *)
  sqrt : F -> F;
  fabs : F -> F;
  ltb : F -> F -> bool      (* [a < b] *)
}.

Declare Scope arith_scope.
Delimit Scope arith_scope with A.

Module ArithNotations.
Infix "+" := add : arith_scope.
Infix "-" := sub : arith_scope.
Infix "*" := mul : arith_scope.
Infix "/" := div : arith_scope.
Notation "- x" := (opp x) : arith_scope.
Infix "<?" := ltb : arith_scope.
Notation "a >? b" := (ltb b a) : arith_scope.
End ArithNotations.

Section Code.
Import ArithNotations.
Context {F : Type} `{Arith F}.
Local Open Scope arith_scope.

(** Integer literals [1], [2], [3] and the decimal literals of the source
    ([0.5], [0.00001], [99.99]): [dec m e] is [m / 10^e]. *)
Definition lit (n : Z) : F := of_Z n.
Definition dec (m : Z) (e : nat) : F := of_Z m / of_Z (10 ^ Z.of_nat e).

Local Notation "0" := (lit 0) : arith_scope.
Local Notation "1" := (lit 1) : arith_scope.
Local Notation "2" := (lit 2) : arith_scope.
Local Notation "3" := (lit 3) : arith_scope.

(** Python's [x**n] for the literal exponents of the source ([2], [3],
    [5]), as the product written left to right. *)
Fixpoint pow_from (acc x : F) (n : nat) : F :=
  match n with
  | O => acc
  | S n' => pow_from (acc * x) x n'
  end.

Definition pow (x : F) (n : nat) : F :=
  match n with
  | O => 1
  | S n' => pow_from x x n'
  end.

(** *** The constants of the solvers

    They are literals inside the C++ bodies: [int nmax = 50], [r = -99.99]
    and [fabs(dr) > 0.00001]. *)
Definition nmax : Z := 50.
Definition epsilon : F := dec 1 5.
Definition sentinel : F := - dec 9999 2.

(** *** [Potential(x, y, z, q, qp1by2om2)] (Python) *)

Definition Sample : Type := (F * F * F * F * F * F * F)%type.

Definition Potential (x y z q qp1by2om2 : F) : Sample :=
  let rc2 := pow x 2 + pow y 2 + pow z 2 in
  let rx := sqrt (rc2 + 1 - 2 * x) in
  let rc := sqrt rc2 in
  let psi := 1 / rc + q / rx - q * x + qp1by2om2 * (rc2 - pow z 2) in
  let dpsi := - (1) / pow rc 3 - q / pow rx 3 in
  let dpsidx := x * (dpsi + 2 * qp1by2om2) + q * (- (1) + 1 / pow rx 3) in
  let dpsidy := y * (dpsi + 2 * qp1by2om2) in
  let dpsidz := z * dpsi in
  (rc, rx, dpsi, dpsidx, dpsidy, dpsidz, psi).

(** The value [psi] of a sample, and the directional derivative
    [dpsidr = dpsidx*cosx + dpsidy*cosy + dpsidz*cosz] the solvers form
    from its gradient. *)
Definition psi_of (s : Sample) : F :=
  let '(rc, rx, dpsi, dpsidx, dpsidy, dpsidz, psi) := s in psi.

Definition rc_of (s : Sample) : F :=
  let '(rc, rx, dpsi, dpsidx, dpsidy, dpsidz, psi) := s in rc.

Definition rx_of (s : Sample) : F :=
  let '(rc, rx, dpsi, dpsidx, dpsidy, dpsidz, psi) := s in rx.

Definition dpsi_of (s : Sample) : F :=
  let '(rc, rx, dpsi, dpsidx, dpsidy, dpsidz, psi) := s in dpsi.

Definition dpsidx_of (s : Sample) : F :=
  let '(rc, rx, dpsi, dpsidx, dpsidy, dpsidz, psi) := s in dpsidx.

Definition dpsidr_of (cosx cosy cosz : F) (s : Sample) : F :=
  let '(rc, rx, dpsi, dpsidx, dpsidy, dpsidz, psi) := s in
  dpsidx * cosx + dpsidy * cosy + dpsidz * cosz.

(** *** [Get_potential(x, y, z, q, omega)] (Python)

    The first line of [Get_potential] and of [Get_saddle]:
    [qp1by2om2 = (q+1.)/2.*omega**2]. *)
Definition qp1by2om2_of (q omega : F) : F := (q + 1) / 2 * pow omega 2.

Definition Get_potential (x y z q omega : F) : Sample :=
  let qp1by2om2 := qp1by2om2_of q omega in
  let rc2 := pow x 2 + pow y 2 + pow z 2 in
  let rx := sqrt (rc2 + 1 - 2 * x) in
  let rc := sqrt rc2 in
  let psi := 1 / rc + q / rx - q * x + qp1by2om2 * (rc2 - pow z 2) in
  let dpsi := - (1) / pow rc 3 - q / pow rx 3 in
  let dpsidx := x * (dpsi + 2 * qp1by2om2) + q * (- (1) + 1 / pow rx 3) in
  let dpsidy := y * (dpsi + 2 * qp1by2om2) in
  let dpsidz := z * dpsi in
  (rc, rx, dpsi, dpsidx, dpsidy, dpsidz, psi).

(** *** [Get_radius(r, cosx, cosy, cosz, psi0, q, omega)] (Python) *)
Definition Get_radius (r cosx cosy cosz psi0 q omega : F) : F :=
  let x := r * cosx in
  let y := r * cosy in
  let z := r * cosz in
  let '(rc, rx, dpsi, dpsidx, dpsidy, dpsidz, psi) :=
    Get_potential x y z q omega in
  let dpsidr := dpsidx * cosx + dpsidy * cosy + dpsidz * cosz in
  let dr := - (psi - psi0) / dpsidr in
  dr.

(** *** [Get_saddle(x, q, omega)] (Python) *)
Definition Get_saddle (x q omega : F) : F :=
  let qp1by2om2 := qp1by2om2_of q omega in
  let '(rc, rx, dpsi, dpsidx, dpsidy, dpsidz, psi) :=
    Get_potential x 0 0 q omega in
  let d2psidx2 :=
    dpsi + 3 * (pow x 2 / pow rc 5 + q * pow (x - 1) 2 / pow rx 5)
    + 2 * qp1by2om2 in
  let dx := - dpsidx / d2psidx2 in
  let x := x + dx in
  dx / x.

(** *** [Radius], the C++ body

    One pass through the body of the [do { ... } while] after the cap
    test: the step [dr] computed at [r] along the direction. *)
Definition Radius_dr (cosx cosy cosz psi0 r q qp1by2om2 : F) : F :=
  let x := r * cosx in
  let y := r * cosy in
  let z := r * cosz in
  let rc2 := x * x + y * y + z * z in
  let rc := sqrt rc2 in
  let rx := sqrt (rc2 + 1 - 2 * x) in
  let rx3 := rx * rx * rx in
  let psi := 1 / rc + q / rx - q * x + qp1by2om2 * (rc2 - z * z) in
  let dpsi := - (1) / (rc * rc * rc) - q / rx3 in
  let dpsidx := x * (dpsi + 2 * qp1by2om2) + q * (1 / rx3 - 1) in
  let dpsidy := y * (dpsi + 2 * qp1by2om2) in
  let dpsidz := z * dpsi in
  let dpsidr := dpsidx * cosx + dpsidy * cosy + dpsidz * cosz in
  (psi - psi0) / dpsidr.

(** [if ((r - dr) < 0.0) r = 0.5 * r; else r = r - dr;] *)
Definition Radius_update (r dr : F) : F :=
  if r - dr <? 0 then dec 5 1 * r else r - dr.

(** The [do { i += 1; if (i > nmax) { r = -99.99; break; } ... }
    while (fabs(dr) > 0.00001)] loop; [i] and [r] are the C++ variables
    on entry to the body.  [None] is the model running out of fuel. *)
Fixpoint Radius_loop (fuel : nat) (cosx cosy cosz psi0 q qp1by2om2 : F)
    (i : Z) (r : F) : option F :=
  match fuel with
  | O => None
  | S fuel' =>
      let i := (i + 1)%Z in
      if (i >? nmax)%Z then Some sentinel
      else
        let dr := Radius_dr cosx cosy cosz psi0 r q qp1by2om2 in
        let r := Radius_update r dr in
        if fabs dr >? epsilon
        then Radius_loop fuel' cosx cosy cosz psi0 q qp1by2om2 i r
        else Some r
  end.

(** [int i = 0; ... return_val = r;].  The counter bounds the loop, so
    [nmax + 1] entries into the body are all it can make. *)
Definition Radius_fuel : nat := S (Z.to_nat nmax).

Definition Radius (cosx cosy cosz psi0 r q qp1by2om2 : F) : option F :=
  Radius_loop Radius_fuel cosx cosy cosz psi0 q qp1by2om2 0 r.

(** The same loop with a ghost log: one entry [(r, dr, r')] for every
    pass that reaches the update, oldest first.  [Radius_run_erase] shows
    that dropping the log gives [Radius_loop] back. *)
Fixpoint Radius_run (fuel : nat) (cosx cosy cosz psi0 q qp1by2om2 : F)
    (i : Z) (r : F) : option (F * list (F * F * F)) :=
  match fuel with
  | O => None
  | S fuel' =>
      let i := (i + 1)%Z in
      if (i >? nmax)%Z then Some (sentinel, [])
      else
        let dr := Radius_dr cosx cosy cosz psi0 r q qp1by2om2 in
        let r' := Radius_update r dr in
        if fabs dr >? epsilon
        then
          match Radius_run fuel' cosx cosy cosz psi0 q qp1by2om2 i r' with
          | Some (v, log) => Some (v, (r, dr, r') :: log)
          | None => None
          end
        else Some (r', [(r, dr, r')])
  end.

(** What the loop does to one log entry, and how entries follow each
    other: every pass starts from the radius the pass before left. *)
Definition Newton_pass (cosx cosy cosz psi0 q qp1by2om2 : F)
    (e : F * F * F) : Prop :=
  let '(r, dr, r') := e in
  dr = Radius_dr cosx cosy cosz psi0 r q qp1by2om2 /\
  r' = Radius_update r dr.

Fixpoint chained (r : F) (log : list (F * F * F)) : Prop :=
  match log with
  | [] => True
  | (r1, _, r1') :: log' => r1 = r /\ chained r1' log'
  end.

(** The loop test [fabs(dr) > 0.00001] on the step of an entry. *)
Definition step_above (e : F * F * F) : bool :=
  let '(_, dr, _) := e in fabs dr >? epsilon.

(** *** [Radii], the C++ body

    [a(i)] on a blitz array.  The loop only reads indices below
    [n = cosx.size]; outside the array the model reads [0]. *)
Definition rd (a : list F) (i : nat) : F := default 0 (a !! i).

(** The step computed in lane [i], reading [rout(i)], [cosx(i)],
    [cosy(i)] and [cosz(i)]. *)
Definition Radii_dr (cosx cosy cosz : list F) (psi0 q qp1by2om2 : F)
    (i : nat) (rout : list F) : F :=
  let x := rd rout i * rd cosx i in
  let y := rd rout i * rd cosy i in
  let z := rd rout i * rd cosz i in
  let rc2 := x * x + y * y + z * z in
  let rc := sqrt rc2 in
  let rx := sqrt (rc2 + 1 - 2 * x) in
  let rx3 := rx * rx * rx in
  let psi := 1 / rc + q / rx - q * x + qp1by2om2 * (rc2 - z * z) in
  let dpsi := - (1) / (rc * rc * rc) - q / rx3 in
  let dpsidx := x * (dpsi + 2 * qp1by2om2) + q * (1 / rx3 - 1) in
  let dpsidy := y * (dpsi + 2 * qp1by2om2) in
  let dpsidz := z * dpsi in
  let dpsidr := dpsidx * rd cosx i + dpsidy * rd cosy i + dpsidz * rd cosz i in
  (psi - psi0) / dpsidr.

(** The inner [do { ii += 1; ... } while (fabs(dr) > 0.00001)] of lane
    [i], updating [rout] in place. *)
Fixpoint Radii_lane (fuel : nat) (cosx cosy cosz : list F)
    (psi0 q qp1by2om2 : F) (i : nat) (ii : Z) (rout : list F)
    : option (list F) :=
  match fuel with
  | O => None
  | S fuel' =>
      let ii := (ii + 1)%Z in
      if (ii >? nmax)%Z then Some (<[i := sentinel]> rout)
      else
        let dr := Radii_dr cosx cosy cosz psi0 q qp1by2om2 i rout in
        let rout :=
          if rd rout i - dr <? 0
          then <[i := dec 5 1 * rd rout i]> rout
          else <[i := rd rout i - dr]> rout in
        if fabs dr >? epsilon
        then Radii_lane fuel' cosx cosy cosz psi0 q qp1by2om2 i ii rout
        else Some rout
  end.

(** The [for (int i=0; i<n; ++i)] under [#pragma omp for]: the lanes of
    [sched], one after the other.  Each lane sets [ii = 0] and
    [rout(i) = r] and runs its loop; the temporaries are private to the
    thread and [rout(i)] is the only shared cell a lane writes. *)
Fixpoint Radii_for (sched : list nat) (cosx cosy cosz : list F)
    (psi0 r q qp1by2om2 : F) (rout : list F) : option (list F) :=
  match sched with
  | [] => Some rout
  | i :: sched' =>
      match Radii_lane Radius_fuel cosx cosy cosz psi0 q qp1by2om2 i 0
              (<[i := r]> rout) with
      | Some rout' =>
          Radii_for sched' cosx cosy cosz psi0 r q qp1by2om2 rout'
      | None => None
      end
  end.

(** [numpy.empty(n, dtype=float)]: [n] cells of unspecified content,
    here whatever [junk] holds. *)
Definition numpy_empty (junk : nat -> F) (n : nat) : list F :=
  map junk (seq 0 n).

(** [n = cosx.size; rout = numpy.empty(n, dtype=float); ...; return rout],
    the lanes taken in index order. *)
Definition Radii (junk : nat -> F) (cosx cosy cosz : list F)
    (psi0 r q qp1by2om2 : F) : option (list F) :=
  let n := length cosx in
  let rout := numpy_empty junk n in
  Radii_for (seq 0 n) cosx cosy cosz psi0 r q qp1by2om2 rout.

(** *** [Saddle], the C++ body

    One pass through the body of the [do { ... } while]: the step [dx]
    and the new [x]. *)
Definition Saddle_step (x q qp1by2om2 : F) : F * F :=
  let rc := fabs x in
  let rx := sqrt (rc * rc + 1 - 2 * x) in
  let rx3 := rx * rx * rx in
  let dpsi := - (1) / (rc * rc * rc) - q / rx3 in
  let dpsidx := x * (dpsi + 2 * qp1by2om2) + q * (1 / rx3 - 1) in
  let d2psidx2 :=
    dpsi
    + 3 * (x * x / (rc * rc * rc * rc * rc)
           + q * (x - 1) * (x - 1) / (rx * rx * rx * rx * rx))
    + 2 * qp1by2om2 in
  let dx := - dpsidx / d2psidx2 in
  let x := x + dx in
  (dx, x).

(** [do { ... x = x+dx; } while (fabs(dx/x) > 0.00001); return_val = x;].
    Nothing in the body bounds the number of passes; [None] is the model
    running out of fuel. *)
Fixpoint Saddle_loop (fuel : nat) (x q qp1by2om2 : F) : option F :=
  match fuel with
  | O => None
  | S fuel' =>
      let '(dx, x) := Saddle_step x q qp1by2om2 in
      if fabs (dx / x) >? epsilon
      then Saddle_loop fuel' x q qp1by2om2
      else Some x
  end.

(** [Saddle x q qp1by2om2] returns [v] when the loop leaves with [v]
    after some number of passes. *)
Definition Saddle (x q qp1by2om2 v : F) : Prop :=
  exists fuel, Saddle_loop fuel x q qp1by2om2 = Some v.

(** The axial derivative [dpsidx] that [Potential] reports at [(x, 0, 0)]. *)
Definition axial_dpsidx (x q qp1by2om2 : F) : F :=
  let '(rc, rx, dpsi, dpsidx, dpsidy, dpsidz, psi) :=
    Potential x 0 0 q qp1by2om2 in
  dpsidx.

(** *** The solver of the specification, with its configuration

    Sections 3, 6 and 9 of the specification describe the tolerance, the
    cap and the sentinel as values a caller passes to a solve.  This is
    that solver, written after the specification's words to compare with
    [Radius]. *)
Record Config : Type := mkConfig {
  cfg_epsilon : F;
  cfg_nmax : Z;
  cfg_sentinel : F
}.

Definition default_config : Config := mkConfig (dec 1 5) 50 (- dec 9999 2).

Fixpoint solve_radius_loop (c : Config) (fuel : nat)
    (cosx cosy cosz psi0 q qp1by2om2 : F) (i : Z) (r : F) : option F :=
  match fuel with
  | O => None
  | S fuel' =>
      let i := (i + 1)%Z in
      if (i >? cfg_nmax c)%Z then Some (cfg_sentinel c)
      else
        let dr := Radius_dr cosx cosy cosz psi0 r q qp1by2om2 in
        let r := Radius_update r dr in
        if fabs dr >? cfg_epsilon c
        then solve_radius_loop c fuel' cosx cosy cosz psi0 q qp1by2om2 i r
        else Some r
  end.

Definition solve_radius (c : Config)
    (cosx cosy cosz psi0 r q qp1by2om2 : F) : option F :=
  solve_radius_loop c (S (Z.to_nat (cfg_nmax c)))
    cosx cosy cosz psi0 q qp1by2om2 0 r.

End Code.

Arguments Sample F : clear implicits.
Arguments Saddle_step : simpl never.
Arguments Config F : clear implicits.

(** ** The two arithmetics *)

(** Real numbers: [double] read as an exact real. *)
Definition Rltb (a b : R) : bool := if Rlt_dec a b then true else false.

#[export] Instance R_arith : Arith R := {
  of_Z := IZR;
  add := Rplus;
  sub := Rminus;
  mul := Rmult;
  div := Rdiv;
  opp := Ropp;
  sqrt := R_sqrt.sqrt;
  fabs := Rabs;
  ltb := Rltb
}.

(** IEEE binary64, round to nearest even: [double] under strict evaluation.
    The integer literals of the code are far below [2^53] and convert
    exactly. *)
Definition b64_of_Z (z : Z) : float :=
  match z with
  | Z0 => PrimFloat.of_uint63 (Uint63.of_Z 0)
  | Zpos _ => PrimFloat.of_uint63 (Uint63.of_Z z)
  | Zneg p => PrimFloat.opp (PrimFloat.of_uint63 (Uint63.of_Z (Zpos p)))
  end.

#[export] Instance b64_arith : Arith float := {
  of_Z := b64_of_Z;
  add := PrimFloat.add;
  sub := PrimFloat.sub;
  mul := PrimFloat.mul;
  div := PrimFloat.div;
  opp := PrimFloat.opp;
  sqrt := PrimFloat.sqrt;
  fabs := PrimFloat.abs;
  ltb := PrimFloat.ltb
}.

(** ** The remaining gradient components of a sample *)

Definition dpsidy_of {F : Type} (s : Sample F) : F :=
  let '(rc, rx, dpsi, dpsidx, dpsidy, dpsidz, psi) := s in dpsidy.

Definition dpsidz_of {F : Type} (s : Sample F) : F :=
  let '(rc, rx, dpsi, dpsidx, dpsidy, dpsidz, psi) := s in dpsidz.

(** ** The orbital utilities (Python), over the reals

    [Mass_companion], [Mass_ratio] and [Orbital_separation] call
    [numpy.sin] and a fractional power, which binary64 as a primitive type
    does not have; they are read in real arithmetic only.  [x**(1./3)] is
    [Rpower x (1/3)], the real power of a positive base.  The constant [C]
    of [Orbital_separation] comes from [import_modules], which is not part
    of the files at hand, and is an argument here. *)

Definition Mass_companion (mass_function q incl : R) : R :=
  (mass_function * (1 + q) ^ 2 / sin incl ^ 3)%R.

Definition Mass_ratio (mass_function M_ns incl : R) : R :=
  (let q := -1 / 9 in
   let r := 0.5 * M_ns * sin incl ^ 3 / mass_function + 1 / 27 in
   let s := Rpower (r + R_sqrt.sqrt (q ^ 3 + r ^ 2)) (1 / 3) in
   let t := Rpower (r - R_sqrt.sqrt (q ^ 3 + r ^ 2)) (1 / 3) in
   s + t - 2 / 3)%R.

Definition Orbital_separation (C : R) (asini q incl : R) : R :=
  (asini * (1 + q) / sin incl * C * 100)%R.

(** ** [Err_velocity] (Python), over the reals

    The arrays are lists.  [GPolynomial_fit] is defined outside the files
    at hand: it is the argument [fit], which returns the three
    coefficients [a_n[0]], [a_n[1]], [a_n[2]] that the body reads.  The
    plots under [verbose] leave the result alone and are left out.  [None]
    stands for the exception the body raises. *)

Definition Rleb (a b : R) : bool := if Rle_dec a b then true else false.

(** [a.argmin()]: the first index of the smallest entry; [ValueError] on
    an empty array. *)
Fixpoint argmin_from (best : R) (ibest i : nat) (a : list R) : nat :=
  match a with
  | [] => ibest
  | v :: a' =>
      if Rlt_dec v best
      then argmin_from v i (S i) a'
      else argmin_from best ibest (S i) a'
  end.

Definition argmin (a : list R) : option nat :=
  match a with
  | [] => None
  | v :: a' => Some (argmin_from v 0 1 a')
  end.

(** [a[inds]] for a boolean array [inds]: the entries of [a] where [inds]
    holds; [IndexError] when the lengths differ. *)
Fixpoint mask_pick (inds : list bool) (a : list R) : list R :=
  match inds, a with
  | b :: inds', v :: a' =>
      if b then v :: mask_pick inds' a' else mask_pick inds' a'
  | _, _ => []
  end.

Definition mask_index (inds : list bool) (a : list R) : option (list R) :=
  if Nat.eqb (length inds) (length a) then Some (mask_pick inds a) else None.

(** The data handed to the fit: [chi2] divided by [dof] under
    [normalize], then cut to the velocities within [clip] of the one of
    smallest [chi2]. *)
Definition Err_velocity_data (chi2 vels : list R) (dof : R)
    (clip : option R) (normalize : bool) : option (list R * list R) :=
  let chi2 := if normalize then map (fun c => (c / dof)%R) chi2 else chi2 in
  match clip with
  | Some clip =>
      i ← argmin chi2;
      v0 ← vels !! i;
      let inds := map (fun v => Rleb (Rabs (v - v0)) clip) vels in
      y ← mask_index inds chi2;
      x ← mask_index inds vels;
      Some (y, x)
  | None => Some (chi2, vels)
  end.

(** [numpy.poly1d(a_n)(v)] for three coefficients. *)
Definition poly1d (a_n : R * R * R) (v : R) : R :=
  let '(a0, a1, a2) := a_n in ((a0 * v + a1) * v + a2)%R.

Definition Err_velocity (fit : list R -> list R -> R * R * R)
    (chi2 vels : list R) (dof : R) (clip : option R)
    (normalize redchi2_unity : bool) : option (R * R * R) :=
  '(y, x) ← Err_velocity_data chi2 vels dof clip normalize;
  let a_n := fit y x in
  let '(a0, a1, a2) := a_n in
  let p_n := poly1d a_n in
  let vfit := (-0.5 * a1 / a0)%R in
  let chi2fit := p_n vfit in
  let err_vfit := R_sqrt.sqrt (1 / a0) in
  let err_vfit :=
    if redchi2_unity then (err_vfit * R_sqrt.sqrt (chi2fit / dof))%R
    else err_vfit in
  Some (chi2fit, vfit, err_vfit).

(** * Properties *)

Import ArithNotations.

(** ** The control flow of [Radius], in any arithmetic *)

Section RadiusFlow.
Context {F : Type} `{Arith F}.
Variables cosx cosy cosz psi0 q qp1by2om2 : F.

Local Abbreviation run fuel := (Radius_run fuel cosx cosy cosz psi0 q qp1by2om2).
Local Abbreviation loop fuel := (Radius_loop fuel cosx cosy cosz psi0 q qp1by2om2).

(** Dropping the ghost log of [Radius_run] gives [Radius_loop]. *)
Lemma Radius_run_erase fuel i r :
  loop fuel i r = fst <$> run fuel i r.
Proof.
  revert i r; induction fuel as [|fuel IH]; intros i r; simpl; [done|].
  destruct (_ >? nmax)%Z; [done|].
  destruct (ltb _ _); [|done].
  rewrite IH. by destruct (run fuel _ _) as [[v log]|].
Qed.

(** The counter bounds the loop: with [nmax + 1 - i] units of fuel the
    run ends. *)
Lemma Radius_run_total fuel i r :
  (0 <= i)%Z -> (Z.max 1 (nmax + 1 - i) <= Z.of_nat fuel)%Z ->
  exists v log, run fuel i r = Some (v, log).
Proof.
  revert i r; induction fuel as [|fuel IH]; intros i r Hi Hfuel.
  - lia.
  - simpl. destruct (i + 1 >? nmax)%Z eqn:Hcap; [by eauto|].
    destruct (ltb _ _); [|by eauto].
    destruct (IH (i + 1)%Z
      (Radius_update r (Radius_dr cosx cosy cosz psi0 r q qp1by2om2)))
      as (v & log & ->); [lia|lia|by eauto].
Qed.

(** What a finished run looks like.  Either the last pass made a step
    that failed the loop test and its radius is returned as it is, or
    the counter passed [nmax], every step before passed the test, and the
    sentinel is returned. *)
Lemma Radius_run_shape fuel i r v log :
  run fuel i r = Some (v, log) ->
  chained r log /\
  Forall (Newton_pass cosx cosy cosz psi0 q qp1by2om2) log /\
  ((exists pre rk drk,
      log = pre ++ [(rk, drk, v)] /\
      Forall (fun e => step_above e = true) pre /\
      (fabs drk >? epsilon)%A = false /\
      (i + Z.of_nat (length log) <= nmax)%Z)
   \/ (v = sentinel /\
       Forall (fun e => step_above e = true) log /\
       (i + Z.of_nat (length log) = Z.max i nmax)%Z)).
Proof.
  revert i r v log; induction fuel as [|fuel IH]; intros i r v log; simpl;
    [done|].
  destruct (i + 1 >? nmax)%Z eqn:Hcap.
  { intros [= <- <-]. split; [done|]. split; [done|]. right.
    split; [done|]. split; [done|]. simpl. lia. }
  set (dr := Radius_dr cosx cosy cosz psi0 r q qp1by2om2).
  set (r' := Radius_update r dr).
  destruct (ltb epsilon (fabs dr)) eqn:Htest.
  - destruct (run fuel (i + 1)%Z r') as [[v' log']|] eqn:Hrun; [|done].
    intros [= <- <-].
    destruct (IH _ _ _ _ Hrun) as (Hch & Hok & Hend).
    split; [done|]. split; [by constructor|].
    destruct Hend as [(pre & rk & drk & -> & Hpre & Hlast & Hlen)
                     |(-> & Hall & Hlen)].
    + left. exists ((r, dr, r') :: pre), rk, drk.
      split; [done|]. split; [by constructor|]. split; [done|].
      simpl in *. lia.
    + right. split; [done|]. split; [by constructor|]. simpl. lia.
  - intros [= <- <-]. split; [done|]. split; [by constructor|].
    left. exists [], r, dr. split; [done|]. split; [done|].
    split; [done|]. simpl. lia.
Qed.

(** [Radius] always returns: a value together with the log of its run. *)
Lemma Radius_returns r :
  exists v log,
    run Radius_fuel 0 r = Some (v, log) /\
    Radius cosx cosy cosz psi0 r q qp1by2om2 = Some v.
Proof.
  destruct (Radius_run_total Radius_fuel 0 r) as (v & log & Hrun);
    [done|by unfold Radius_fuel, nmax; simpl; lia|].
  exists v, log. split; [done|].
  unfold Radius. by rewrite Radius_run_erase, Hrun.
Qed.

End RadiusFlow.

(** ** Real arithmetic: the formulas of [Potential] *)

(** The class operations at [R_arith] are the operations of [R]. *)
Ltac to_R :=
  cbv [Potential Get_potential Get_radius Get_saddle qp1by2om2_of
       psi_of rc_of rx_of dpsi_of dpsidx_of dpsidr_of Radius_dr Radius_update Saddle_step axial_dpsidx
       epsilon sentinel lit dec pow pow_from
       of_Z add sub mul div opp sqrt fabs ltb R_arith
       Z.pow Z.of_nat Z.pow_pos Pos.iter Pos.of_succ_nat Pos.succ Z.mul Pos.mul
       Pos.add].

Section Real.
Local Open Scope R_scope.

Lemma sqrt_sq_sum (x y z : R) :
  R_sqrt.sqrt (x * x + y * y + z * z) * R_sqrt.sqrt (x * x + y * y + z * z)
  = x * x + y * y + z * z.
Proof. apply sqrt_sqrt. nra. Qed.

(** C2. At every point with [rc > 0] and [rx > 0], [Potential] returns
    the seven values of section 4.1: [rc = sqrt(x²+y²+z²)],
    [rx = sqrt(rc²+1−2x)], [dpsi = −1/rc³ − q/rx³], the three gradient
    components and [psi = 1/rc + q/rx − q·x + qp1by2om2·(rc²−z²)].  It is
    a function of its five arguments and nothing else; [Get_potential] is
    the same evaluator at the coefficient it derives from [omega]. *)
Theorem Potential_formulas (x y z q qp1by2om2 : R) :
  let rc := R_sqrt.sqrt (x ^ 2 + y ^ 2 + z ^ 2) in
  let rx := R_sqrt.sqrt (rc ^ 2 + 1 - 2 * x) in
  let dpsi := - 1 / rc ^ 3 - q / rx ^ 3 in
  0 < rc -> 0 < rx ->
  Potential x y z q qp1by2om2 =
    (rc, rx, dpsi,
     x * (dpsi + 2 * qp1by2om2) + q * (1 / rx ^ 3 - 1),
     y * (dpsi + 2 * qp1by2om2),
     z * dpsi,
     1 / rc + q / rx - q * x + qp1by2om2 * (rc ^ 2 - z ^ 2))
  /\ forall omega,
       Get_potential x y z q omega =
       Potential x y z q (qp1by2om2_of q omega).
Proof.
  intros rc rx dpsi Hrc Hrx. split; [|reflexivity].
  subst dpsi rx rc. to_R.
  pose proof (sqrt_sq_sum x y z) as Hsq.
  replace (x ^ 2 + y ^ 2 + z ^ 2) with (x * x + y * y + z * z) by ring.
  set (s := x * x + y * y + z * z) in *.
  replace (R_sqrt.sqrt s ^ 2) with s by (rewrite <- Hsq at 1; ring).
  set (rc := R_sqrt.sqrt s). set (rx := R_sqrt.sqrt (s + 1 - 2 * x)).
  replace (rc ^ 3) with (rc * rc * rc) by ring.
  replace (rx ^ 3) with (rx * rx * rx) by ring.
  repeat match goal with |- (_, _) = (_, _) => f_equal end;
    unfold Rdiv; ring.
Qed.

(** C9. With [q = 0] the companion terms [q/rx] and [q*x] vanish and the
    [psi] that [Potential] returns is the single-body form
    [1/rc + qp1by2om2·(rc² − z²)]. *)
Theorem Potential_single_body (x y z qp1by2om2 : R) :
  let rc := R_sqrt.sqrt (x ^ 2 + y ^ 2 + z ^ 2) in
  let rx := R_sqrt.sqrt (rc ^ 2 + 1 - 2 * x) in
  0 < rc -> 0 < rx ->
  psi_of (Potential x y z 0 qp1by2om2)
  = 1 / rc + qp1by2om2 * (rc ^ 2 - z ^ 2).
Proof.
  intros rc rx Hrc Hrx. subst rx rc. to_R.
  pose proof (sqrt_sq_sum x y z) as Hsq.
  replace (x ^ 2 + y ^ 2 + z ^ 2) with (x * x + y * y + z * z) by ring.
  set (s := x * x + y * y + z * z) in *.
  replace (R_sqrt.sqrt s ^ 2) with s by (rewrite <- Hsq at 1; ring).
  unfold Rdiv. ring.
Qed.

(** The coefficient the [omega] forms derive, as the source computes it:
    half of [q + 1], times the square of [omega]. *)
Lemma qp1by2om2_of_value (q omega : R) :
  qp1by2om2_of q omega = (q + 1) / 2 * omega ^ 2.
Proof. to_R. unfold Rdiv. ring. Qed.

(** C5. [Get_potential] and [Get_saddle] compute
    [(q+1.)/2.*omega**2].  At [q = 1], [omega = 2] that is [4], where
    [(q+1)/(2·omega²)] is [1/4]; the two agree when [omega² = 1], the
    default.  The value reaches the result: at the point [(0, 1, 0)] the
    [psi] of [Get_potential] is [15/4] above the one [Potential] gives for
    the coefficient [1/4]. *)
Theorem omega_coefficient_at_q1_omega2 :
  qp1by2om2_of (F := R) 1 2 = 4 /\
  (1 + 1) / (2 * 2 ^ 2) = 1 / 4 /\
  (forall x y z q omega : R,
     Get_potential x y z q omega = Potential x y z q ((q + 1) / 2 * omega ^ 2)) /\
  psi_of (Get_potential (F := R) 0 1 0 1 2)
  - psi_of (Potential (F := R) 0 1 0 1 ((1 + 1) / (2 * 2 ^ 2))) = 15 / 4.
Proof.
  split; [rewrite qp1by2om2_of_value; lra|].
  split; [lra|].
  split.
  - intros. rewrite <- qp1by2om2_of_value. reflexivity.
  - to_R. unfold Rdiv. field_simplify_eq; [lra|].
    split; apply Rgt_not_eq, sqrt_lt_R0; lra.
Qed.

(** The step of the C++ body of [Radius] is the Newton quotient formed
    from the sample [Potential] returns at [r·(cosx, cosy, cosz)]. *)
Lemma Radius_dr_Potential (cosx cosy cosz psi0 r q qp1by2om2 : R) :
  let s := Potential (r * cosx) (r * cosy) (r * cosz) q qp1by2om2 in
  Radius_dr cosx cosy cosz psi0 r q qp1by2om2
  = (psi_of s - psi0) / dpsidr_of cosx cosy cosz s.
Proof.
  intros s; subst s. to_R. f_equal. unfold Rdiv. ring.
Qed.

(** C10. [Get_radius] is one evaluation and one quotient: it returns
    [−(psi − psi0)/dpsidr] for the sample [Get_potential] gives at
    [r·(cosx, cosy, cosz)], with no loop, test or sentinel around it.  The
    value is the opposite of the step [dr] that the body of [Radius]
    subtracts at the same radius. *)
Theorem Get_radius_single_step (r cosx cosy cosz psi0 q omega : R) :
  let s := Get_potential (r * cosx) (r * cosy) (r * cosz) q omega in
  Get_radius r cosx cosy cosz psi0 q omega
  = - (psi_of s - psi0) / dpsidr_of cosx cosy cosz s
  /\ Get_radius r cosx cosy cosz psi0 q omega
     = - Radius_dr cosx cosy cosz psi0 r q (qp1by2om2_of q omega).
Proof.
  intros s; subst s. split; [reflexivity|].
  to_R. unfold Rdiv. rewrite <- Ropp_mult_distr_l. f_equal. f_equal.
  f_equal. ring.
Qed.


(** The loop test and the guard, read in [R]. *)
Lemma Rltb_true (a b : R) : Rltb a b = true <-> a < b.
Proof. unfold Rltb. destruct (Rlt_dec a b); split; (done || lra). Qed.

Lemma Rltb_false (a b : R) : Rltb a b = false <-> b <= a.
Proof. unfold Rltb. destruct (Rlt_dec a b); split; (done || lra). Qed.

Lemma epsilon_R : epsilon (F := R) = 1e-5.
Proof. to_R. lra. Qed.

Lemma sentinel_R : sentinel (F := R) = -99.99.
Proof. to_R. lra. Qed.

Lemma Radius_update_R (r dr : R) :
  (r - dr < 0 /\ Radius_update r dr = 0.5 * r) \/
  (0 <= r - dr /\ Radius_update r dr = r - dr).
Proof.
  unfold Radius_update.
  change (ltb (sub r dr) (lit 0)) with (Rltb (r - dr) 0).
  destruct (Rltb (r - dr) 0) eqn:Hlt.
  - left. apply Rltb_true in Hlt. split; [done|]. to_R. lra.
  - right. apply Rltb_false in Hlt. split; [done|]. reflexivity.
Qed.

(** The theorems above at concrete inputs. *)
Lemma Potential_formulas_witness :
  rc_of (Potential (F := R) 0 0 1 1 1) = R_sqrt.sqrt (0 ^ 2 + 0 ^ 2 + 1 ^ 2).
Proof.
  assert (H1 : 0 < R_sqrt.sqrt (0 ^ 2 + 0 ^ 2 + 1 ^ 2))
    by (apply sqrt_lt_R0; lra).
  assert (H2 : 0 < R_sqrt.sqrt
                     (R_sqrt.sqrt (0 ^ 2 + 0 ^ 2 + 1 ^ 2) ^ 2 + 1 - 2 * 0))
    by (apply sqrt_lt_R0; nra).
  destruct (Potential_formulas 0 0 1 1 1 H1 H2) as [Heq _].
  rewrite Heq. reflexivity.
Defined.

Lemma Potential_single_body_witness :
  psi_of (Potential (F := R) 0 0 1 0 1)
  = 1 / R_sqrt.sqrt (0 ^ 2 + 0 ^ 2 + 1 ^ 2)
    + 1 * (R_sqrt.sqrt (0 ^ 2 + 0 ^ 2 + 1 ^ 2) ^ 2 - 1 ^ 2).
Proof.
  apply (Potential_single_body 0 0 1 1).
  - apply sqrt_lt_R0; lra.
  - apply sqrt_lt_R0; nra.
Defined.

End Real.

(** ** [Radii] against [Radius], in any arithmetic *)

Section Batch.
Context {F : Type} `{Arith F}.
Variables (cosx cosy cosz : list F) (psi0 r q qp1by2om2 : F).

(** What [Radius] returns for the direction at index [i]. *)
Local Abbreviation lane_Radius i :=
  (Radius (rd cosx i) (rd cosy i) (rd cosz i) psi0 r q qp1by2om2).

Lemma rd_insert_eq (a : list F) (i : nat) (v : F) :
  (i < length a)%nat -> rd (<[i := v]> a) i = v.
Proof. intros Hi. unfold rd. by rewrite list_lookup_insert_eq. Qed.

Lemma rd_lookup (a : list F) (i : nat) (v : F) :
  a !! i = Some v -> rd a i = v.
Proof. intros Hv. unfold rd. by rewrite Hv. Qed.

(** The inner loop of lane [i] is the loop of [Radius] run on the cell
    [rout(i)]: it leaves every other cell alone. *)
Lemma Radii_lane_Radius_loop fuel i ii rout :
  (i < length rout)%nat ->
  Radii_lane fuel cosx cosy cosz psi0 q qp1by2om2 i ii rout
  = (fun v => <[i := v]> rout) <$>
    Radius_loop fuel (rd cosx i) (rd cosy i) (rd cosz i) psi0 q qp1by2om2
      ii (rd rout i).
Proof.
  revert ii rout; induction fuel as [|fuel IH]; intros ii rout Hi; simpl;
    [done|].
  destruct (ii + 1 >? nmax)%Z; [done|].
  change (Radii_dr cosx cosy cosz psi0 q qp1by2om2 i rout)
    with (Radius_dr (rd cosx i) (rd cosy i) (rd cosz i) psi0 (rd rout i)
            q qp1by2om2).
  set (dr := Radius_dr _ _ _ _ _ _ _).
  unfold Radius_update.
  destruct (ltb (sub (rd rout i) dr) (lit 0));
    (destruct (ltb epsilon (fabs dr));
     [ rewrite IH by (by rewrite length_insert);
       rewrite rd_insert_eq by done;
       destruct (Radius_loop _ _ _ _ _ _ _ _ _); simpl; [|done];
       by rewrite list_insert_insert_eq
     | simpl; done ]).
Qed.

Lemma Radii_for_cons i sched rout :
  Radii_for (i :: sched) cosx cosy cosz psi0 r q qp1by2om2 rout
  = Radii_lane Radius_fuel cosx cosy cosz psi0 q qp1by2om2 i 0
      (<[i := r]> rout)
    ≫= Radii_for sched cosx cosy cosz psi0 r q qp1by2om2.
Proof. reflexivity. Qed.

(** After the lanes of a schedule without repetition, each cell of the
    schedule holds what [Radius] returns for its direction, and the other
    cells are untouched. *)
Lemma Radii_for_lanes sched rout :
  NoDup sched ->
  Forall (fun i => (i < length rout)%nat) sched ->
  exists rout',
    Radii_for sched cosx cosy cosz psi0 r q qp1by2om2 rout = Some rout' /\
    length rout' = length rout /\
    (forall i, i ∈ sched -> exists v, lane_Radius i = Some v /\ rout' !! i = Some v) /\
    (forall j, j ∉ sched -> rout' !! j = rout !! j).
Proof.
  revert rout; induction sched as [|i sched IH]; intros rout Hnd Hlt.
  { exists rout. split; [done|]. split; [done|]. split; [|done].
    intros i Hi. by apply elem_of_nil in Hi. }
  apply NoDup_cons in Hnd as [Hi Hnd].
  apply Forall_cons in Hlt as [Hlt Hall].
  destruct (Radius_returns (rd cosx i) (rd cosy i) (rd cosz i) psi0 q
              qp1by2om2 r) as (v & log & _ & Hv).
  rewrite Radii_for_cons.
  rewrite Radii_lane_Radius_loop by (by rewrite length_insert).
  rewrite rd_insert_eq by done.
  unfold Radius in Hv. rewrite Hv. cbn [fmap option_fmap option_map mbind option_bind].
  rewrite list_insert_insert_eq.
  destruct (IH (<[i := v]> rout)) as (rout' & Hrun & Hlen & Hin & Hout);
    [done| |].
  { eapply Forall_impl; [exact Hall|]. intros j Hj. by rewrite length_insert. }
  exists rout'. split; [done|]. rewrite length_insert in Hlen.
  split; [done|]. split.
  - intros j [->|Hj]%elem_of_cons; [|by apply Hin].
    exists v. split; [done|].
    rewrite Hout by done. by apply list_lookup_insert_eq.
  - intros j [Hne Hj]%not_elem_of_cons.
    rewrite Hout by done. by apply list_lookup_insert_ne.
Qed.

End Batch.

(** C4. [Radii] returns one value per direction, in the order of the
    input arrays, and the value at index [i] is exactly what [Radius]
    returns for direction [i] alone from the same [r0], [q], [qp1by2om2]
    and [psi0]: a lane depends on nothing but its own direction, so a lane
    that ends on the sentinel leaves the others as they are.  The result
    does not depend on what [numpy.empty] held, nor on the order in which
    the lanes are run. *)
Theorem Radii_lanes_are_Radius {F : Type} `{Arith F} (junk : nat -> F)
    (cosx cosy cosz : list F) (psi0 r q qp1by2om2 : F) :
  length cosy = length cosx -> length cosz = length cosx ->
  exists rout,
    Radii junk cosx cosy cosz psi0 r q qp1by2om2 = Some rout /\
    length rout = length cosx /\
    (forall i, (i < length cosx)%nat ->
       exists cx cy cz v,
         cosx !! i = Some cx /\ cosy !! i = Some cy /\ cosz !! i = Some cz /\
         Radius cx cy cz psi0 r q qp1by2om2 = Some v /\
         rout !! i = Some v) /\
    (forall sched junk',
       sched ≡ₚ seq 0 (length cosx) ->
       Radii_for sched cosx cosy cosz psi0 r q qp1by2om2
         (numpy_empty junk' (length cosx)) = Some rout).
Proof.
  intros Hy Hz. set (n := length cosx).
  assert (Hlen : forall j : nat -> F, length (numpy_empty j n) = n).
  { intros j. unfold numpy_empty. by rewrite length_map, length_seq. }
  assert (Hsched : forall sched (j : nat -> F), sched ≡ₚ seq 0 n ->
    exists rout',
      Radii_for sched cosx cosy cosz psi0 r q qp1by2om2 (numpy_empty j n)
        = Some rout' /\
      length rout' = n /\
      forall i, (i < n)%nat ->
        exists v, Radius (rd cosx i) (rd cosy i) (rd cosz i) psi0 r q
                    qp1by2om2 = Some v /\ rout' !! i = Some v).
  { intros sched j Hp.
    destruct (Radii_for_lanes cosx cosy cosz psi0 r q qp1by2om2 sched
                (numpy_empty j n)) as (rout' & Hrun & Hl & Hin & _).
    - rewrite Hp. apply NoDup_seq.
    - rewrite Hp, Hlen. apply Forall_seq. lia.
    - exists rout'. split; [done|]. rewrite Hlen in Hl. split; [done|].
      intros i Hi. apply Hin. rewrite Hp. apply elem_of_seq. lia. }
  destruct (Hsched (seq 0 n) junk) as (rout & Hrun & Hl & Hlanes); [done|].
  exists rout. split; [done|]. split; [done|]. split.
  - intros i Hi.
    destruct (lookup_lt_is_Some_2 cosx i) as [cx Hcx]; [done|].
    destruct (lookup_lt_is_Some_2 cosy i) as [cy Hcy]; [by rewrite Hy|].
    destruct (lookup_lt_is_Some_2 cosz i) as [cz Hcz]; [by rewrite Hz|].
    destruct (Hlanes i Hi) as (v & Hv & Hout).
    exists cx, cy, cz, v.
    rewrite (rd_lookup _ _ _ Hcx), (rd_lookup _ _ _ Hcy),
      (rd_lookup _ _ _ Hcz) in Hv. done.
  - intros sched junk' Hp.
    destruct (Hsched sched junk' Hp) as (rout' & Hrun' & Hl' & Hlanes').
    rewrite Hrun'. f_equal. apply list_eq. intros i.
    destruct (decide (i < n)%nat) as [Hi|Hi].
    + destruct (Hlanes i Hi) as (v & Hv & ->).
      destruct (Hlanes' i Hi) as (v' & Hv' & ->). congruence.
    + rewrite !lookup_ge_None_2 by lia. done.
Qed.

(** The call of the docstring of [Radii], in binary64. *)
Lemma Radii_lanes_are_Radius_witness :
  exists rout,
    Radii (F := float) (fun _ => 0%float)
      [(-1)%float; 0%float; 0%float]
      [0%float; dec 1 1; dec 1 1]
      [0%float; 0%float; dec 1 1]
      5454%float (dec 14 2) 56%float 28.5%float = Some rout /\
    length rout = 3%nat.
Proof.
  destruct (Radii_lanes_are_Radius (F := float) (fun _ => 0%float)
      [(-1)%float; 0%float; 0%float]
      [0%float; dec 1 1; dec 1 1]
      [0%float; 0%float; dec 1 1]
      5454%float (dec 14 2) 56%float 28.5%float eq_refl eq_refl)
    as (rout & Hrun & Hlen & _).
  exists rout. split; [exact Hrun|exact Hlen].
Defined.

(** ** The loop of [Saddle], in any arithmetic *)

Section SaddleFlow.
Context {F : Type} `{Arith F}.
Variables q qp1by2om2 : F.

(** One pass of the loop: step, then the test on [dx/x] at the new [x]. *)
Lemma Saddle_loop_S fuel x :
  Saddle_loop (S fuel) x q qp1by2om2
  = let '(dx, x') := Saddle_step x q qp1by2om2 in
    if (fabs (dx / x') >? epsilon)%A
    then Saddle_loop fuel x' q qp1by2om2
    else Some x'.
Proof. reflexivity. Qed.



(** Two points that the step sends to each other, each time with a
    relative step above the tolerance, keep the loop running for ever. *)
Lemma Saddle_two_cycle a b da db :
  Saddle_step a q qp1by2om2 = (da, b) ->
  Saddle_step b q qp1by2om2 = (db, a) ->
  (fabs (da / b) >? epsilon)%A = true ->
  (fabs (db / a) >? epsilon)%A = true ->
  forall fuel,
    Saddle_loop fuel a q qp1by2om2 = None /\
    Saddle_loop fuel b q qp1by2om2 = None.
Proof.
  intros Ha Hb Hta Htb. induction fuel as [|fuel [IHa IHb]]; [done|].
  rewrite !Saddle_loop_S, Ha, Hb, Hta, Htb. done.
Qed.

End SaddleFlow.

(** ** The constants of [Radius] against a configuration *)

Lemma Radius_loop_default_config {F : Type} `{Arith F}
    fuel (cosx cosy cosz psi0 q qp1by2om2 : F) i r :
  Radius_loop fuel cosx cosy cosz psi0 q qp1by2om2 i r
  = solve_radius_loop default_config fuel cosx cosy cosz psi0 q qp1by2om2 i r.
Proof.
  revert i r; induction fuel as [|fuel IH]; intros i r; [done|].
  cbn [Radius_loop solve_radius_loop]. rewrite IH. reflexivity.
Qed.

(** C8, amended.  The tolerance, the cap and the sentinel of [Radius]
    are the literals [0.00001], [50] and [-99.99] of its C++ body; the
    function takes seven arguments and none of them is one of the three.
    On every call it returns what the configurable solver of the
    specification returns at its defaults, and a caller has no way to
    make it use other values. *)
Theorem Radius_constants_are_fixed {F : Type} `{Arith F}
    (cosx cosy cosz psi0 r q qp1by2om2 : F) :
  Radius cosx cosy cosz psi0 r q qp1by2om2
  = solve_radius default_config cosx cosy cosz psi0 r q qp1by2om2 /\
  cfg_epsilon default_config = epsilon /\
  cfg_nmax (F := F) default_config = nmax /\
  cfg_sentinel default_config = sentinel /\
  epsilon (F := R) = 1e-5%R /\ nmax = 50%Z /\ sentinel (F := R) = (-99.99)%R.
Proof.
  split; [apply Radius_loop_default_config|].
  repeat split; (reflexivity || apply epsilon_R || apply sentinel_R).
Qed.

(** ** [Saddle] over the reals *)

Section RealSaddle.
Local Open Scope R_scope.

(** The pass of [Saddle] is the Newton step on the axial derivative that
    [Potential] reports at [(x, 0, 0)], where [rc = |x|]. *)
Lemma Saddle_step_Potential (x q qp1by2om2 : R) :
  let s := Potential x 0 0 q qp1by2om2 in
  let rc := Rabs x in
  let rx := rx_of s in
  let d2psidx2 :=
    dpsi_of s + 3 * (x ^ 2 / rc ^ 5 + q * (x - 1) ^ 2 / rx ^ 5)
    + 2 * qp1by2om2 in
  let dx := - dpsidx_of s / d2psidx2 in
  rc_of s = rc /\ Saddle_step x q qp1by2om2 = (dx, x + dx).
Proof.
  intros s rc rx d2psidx2 dx. subst dx d2psidx2 rx rc s. to_R.
  assert (Hrc : R_sqrt.sqrt (x * x + 0 * 0 + 0 * 0) = Rabs x).
  { replace (x * x + 0 * 0 + 0 * 0) with (Rsqr x) by (unfold Rsqr; ring).
    apply sqrt_Rsqr_abs. }
  assert (Habs : Rabs x * Rabs x = x * x).
  { rewrite <- Rabs_mult. apply Rabs_pos_eq. nra. }
  rewrite Hrc. split; [done|].
  replace (x * x + 0 * 0 + 0 * 0) with (Rabs x * Rabs x) by (rewrite Habs; ring).
  set (rc := Rabs x). set (rx := R_sqrt.sqrt (rc * rc + 1 - 2 * x)).
  assert (Hdx :
    - (x * (- (1) / (rc * rc * rc) - q / (rx * rx * rx) + 2 * qp1by2om2)
       + q * (1 / (rx * rx * rx) - 1))
    / (- (1) / (rc * rc * rc) - q / (rx * rx * rx)
       + 3 * (x * x / (rc * rc * rc * rc * rc)
              + q * (x - 1) * (x - 1) / (rx * rx * rx * rx * rx))
       + 2 * qp1by2om2)
    = - (x * (- (1) / (rc * rc * rc) - q / (rx * rx * rx) + 2 * qp1by2om2)
         + q * (- (1) + 1 / (rx * rx * rx)))
      / (- (1) / (rc * rc * rc) - q / (rx * rx * rx)
         + 3 * (x ^ 2 / rc ^ 5 + q * (x - 1) ^ 2 / rx ^ 5)
         + 2 * qp1by2om2)).
  { replace (rc ^ 5) with (rc * rc * rc * rc * rc) by ring.
    replace (rx ^ 5) with (rx * rx * rx * rx * rx) by ring.
    f_equal; unfold Rdiv; ring. }
  rewrite Hdx. reflexivity.
Qed.

(** At [x = 2], [q = 0], [qp1by2om2 = −5/16 = −0.3125] the step is [−4] and
    lands on [−2]; from [−2] it is [4] and lands back on [2]. *)
Lemma Saddle_step_at_2 : Saddle_step (F := R) 2 0 (-5 / 16) = (-4, -2).
Proof.
  to_R. rewrite (Rabs_pos_eq 2) by lra.
  replace (2 * 2 + 1 - 2 * 2) with 1 by lra. rewrite sqrt_1.
  f_equal; field.
Qed.

Lemma Saddle_step_at_minus_2 : Saddle_step (F := R) (-2) 0 (-5 / 16) = (4, 2).
Proof.
  to_R. rewrite (Rabs_left (-2)) by lra.
  replace (- -2 * - -2 + 1 - 2 * -2) with (3 * 3) by lra.
  rewrite sqrt_square by lra.
  f_equal; field.
Qed.

Lemma Saddle_never_returns_R fuel :
  Saddle_loop (F := R) fuel 2 0 (-5 / 16) = None.
Proof.
  apply (Saddle_two_cycle (F := R) 0 (-5 / 16) 2 (-2) (-4) 4
           Saddle_step_at_2 Saddle_step_at_minus_2).
  - change (Rltb epsilon (Rabs (-4 / -2)) = true).
    apply Rltb_true. rewrite epsilon_R.
    replace (-4 / -2) with 2 by field. rewrite Rabs_pos_eq; lra.
  - change (Rltb epsilon (Rabs (4 / 2)) = true).
    apply Rltb_true. rewrite epsilon_R.
    replace (4 / 2) with 2 by field. rewrite Rabs_pos_eq; lra.
Qed.

End RealSaddle.

Section SaddleCap.
Local Open Scope R_scope.

(** C6. [Saddle] iterates the Newton step [x ← x + dx],
    [dx = −dpsidx/d2psidx2], with
    [d2psidx2 = dpsi + 3·(x²/rc⁵ + q·(x−1)²/rx⁵) + 2·qp1by2om2] at
    [y = z = 0] and [rc = |x|], for as long as [|dx/x| > ε] at the new [x];
    nothing else ends the loop.  The call [Saddle(2., 0., -0.3125)] never
    returns: the step sends [2] to [−2] and [−2] back to [2], each time
    with [|dx/x| = 2], in real arithmetic and in binary64 alike. *)
Theorem Saddle_has_no_cap :
  (forall x q qp1by2om2 : R,
     let s := Potential x 0 0 q qp1by2om2 in
     let rc := Rabs x in
     let rx := rx_of s in
     let d2psidx2 :=
       dpsi_of s + 3 * (x ^ 2 / rc ^ 5 + q * (x - 1) ^ 2 / rx ^ 5)
       + 2 * qp1by2om2 in
     let dx := - dpsidx_of s / d2psidx2 in
     rc_of s = rc /\ Saddle_step x q qp1by2om2 = (dx, x + dx)) /\
  (forall (fuel : nat) (x q qp1by2om2 : R),
     Saddle_loop (S fuel) x q qp1by2om2
     = let '(dx, x') := Saddle_step x q qp1by2om2 in
       if Rltb epsilon (Rabs (dx / x'))
       then Saddle_loop fuel x' q qp1by2om2
       else Some x') /\
  (forall fuel : nat, Saddle_loop (F := R) fuel 2 0 (-5 / 16) = None) /\
  (forall fuel : nat,
     Saddle_loop (F := float) fuel 2%float 0%float (-0.3125)%float = None).
Proof.
  split; [exact Saddle_step_Potential|].
  split; [reflexivity|].
  split; [exact Saddle_never_returns_R|].
  apply (Saddle_two_cycle (F := float) 0%float (-0.3125)%float
           2%float (-2)%float (-4)%float 4%float);
    vm_compute; reflexivity.
Qed.

End SaddleCap.

(** ** Concrete calls in binary64 *)

Section Binary64.
Local Open Scope float_scope.

(** The literals of the code in binary64. *)
Lemma epsilon_b64 : epsilon (F := float) = 0x1.4f8b588e368f1p-17.
Proof. vm_compute. reflexivity. Qed.

Lemma sentinel_b64 : sentinel (F := float) = -0x1.8ff5c28f5c28fp+6.
Proof. vm_compute. reflexivity. Qed.

(** Two results of a binary64 call that a comparison tells apart differ. *)
Lemma b64_differ (c : float) (a b : option float) :
  (from_option (fun v => v <? c) false a)
  <> (from_option (fun v => v <? c) false b) ->
  a <> b.
Proof. intros Hne ->. by apply Hne. Qed.



(** C8, as stated, fails.  [solve_radius] with a cap of [1], with a
    tolerance of [1], or with a sentinel of [−1] returns something else
    than [Radius] does on the same arguments: [Radius] takes no such
    value from its caller. *)
Lemma Radius_ignores_overrides :
  solve_radius (mkConfig epsilon 1 sentinel) (-1) 0 0 5454 (dec 14 2) 56 28.5
    <> Radius (-1) 0 0 5454 (dec 14 2) 56 28.5 /\
  solve_radius (mkConfig 1 50 sentinel) (-1) 0 0 5454 (dec 14 2) 56 28.5
    <> Radius (-1) 0 0 5454 (dec 14 2) 56 28.5 /\
  solve_radius (mkConfig epsilon 50 (-1)) 1 0 0 (-5454) (dec 14 2) 56 28.5
    <> Radius 1 0 0 (-5454) (dec 14 2) 56 28.5.
Proof.
  split; [|split].
  - apply (b64_differ 0). vm_compute. discriminate.
  - apply (b64_differ 0.0009765625). vm_compute. discriminate.
  - apply (b64_differ (-50)). vm_compute. discriminate.
Qed.

(** The call of the docstring of [Radius],
    [Radius(-1., 0., 0., 5454., 0.14, 56., 57./2)]: twelve passes, the
    first nine of them halvings, and a radius between [1.8e-4] and
    [1.9e-4]. *)
Lemma Radius_docstring_call_b64 :
  exists v log,
    Radius (-1) 0 0 5454 (dec 14 2) 56 28.5 = Some v /\
    Radius_run Radius_fuel (-1) 0 0 5454 56 28.5 0 (dec 14 2) = Some (v, log) /\
    length log = 12%nat /\
    (dec 18 5 <? v) = true /\ (v <? dec 19 5) = true.
Proof.
  let r := eval vm_compute in
    (Radius_run (F := float) Radius_fuel (-1) 0 0 5454 56 28.5 0 (dec 14 2)) in
  match r with Some (?v, ?log) => exists v, log end.
  repeat split; vm_compute; reflexivity.
Qed.

(** With the zero vector for a direction the sample is taken at the
    centre of the primary: [1/rc] is infinite, the step is not a number,
    the test [fabs(dr) > 0.00001] fails on it and the loop is left after
    one pass with a radius that is not a number either. *)
Lemma Radius_zero_direction_b64 :
  Radius_run Radius_fuel 0 0 0 5454 56 28.5 0 (dec 14 2)
    = Some (nan, [(dec 14 2, nan, nan)]) /\
  Radius 0 0 0 5454 (dec 14 2) 56 28.5 = Some nan.
Proof. split; vm_compute; reflexivity. Qed.

End Binary64.

(** * Further properties of the solvers *)

(** ** [Radius] in any arithmetic, and on a step that is not a number *)

(** X2. In every arithmetic, binary64 included, [Radius] returns after at
    most 50 passes.  Either its last pass made a step on which the test
    [fabs(dr) > 0.00001] is false and the radius of that pass is the
    result, or it made exactly 50 passes and the result is the sentinel. *)
Theorem Radius_bounded_in_any_arithmetic {F : Type} `{Arith F}
    (cosx cosy cosz psi0 r q qp1by2om2 : F) :
  exists v log,
    Radius cosx cosy cosz psi0 r q qp1by2om2 = Some v /\
    Radius_run Radius_fuel cosx cosy cosz psi0 q qp1by2om2 0 r
      = Some (v, log) /\
    (length log <= 50)%nat /\
    ((exists pre rk drk,
        log = pre ++ [(rk, drk, v)] /\ (fabs drk >? epsilon)%A = false)
     \/ (v = sentinel /\ length log = 50%nat)).
Proof.
  destruct (Radius_returns cosx cosy cosz psi0 q qp1by2om2 r)
    as (v & log & Hrun & Hret).
  exists v, log. split; [done|]. split; [done|].
  destruct (Radius_run_shape _ _ _ _ _ _ _ _ _ _ _ Hrun) as (_ & _ & Hend).
  destruct Hend as [(pre & rk & drk & -> & _ & Hlast & Hlen)
                   |(-> & _ & Hlen)]; unfold nmax in Hlen.
  - split; [lia|]. left. by exists pre, rk, drk.
  - split; [lia|]. right. split; [done|lia].
Qed.

Section NotANumber.
Local Open Scope float_scope.

Lemma b64_sub_nan (r : float) : r - nan = nan.
Proof.
  rewrite <- (SF2Prim_Prim2SF (r - nan)), <- (SF2Prim_Prim2SF nan).
  f_equal. rewrite sub_spec.
  change (Prim2SF nan) with S754_nan.
  destruct (Prim2SF r) as [s|s| |s m e]; reflexivity.
Qed.

(** X1. In binary64, whenever the step computed at the starting radius
    is not a number, [Radius] leaves its loop after that one pass and
    returns NaN: [r - dr] is NaN, so the guard [(r - dr) < 0.0] is false and
    [r] becomes NaN, and the loop test [fabs(dr) > 0.00001] is false too.
    The result is then neither a radius nor the sentinel. *)
Theorem Radius_nan_step_b64 (cosx cosy cosz psi0 r q qp1by2om2 : float) :
  Radius_dr cosx cosy cosz psi0 r q qp1by2om2 = nan ->
  Radius cosx cosy cosz psi0 r q qp1by2om2 = Some nan /\
  Radius_run Radius_fuel cosx cosy cosz psi0 q qp1by2om2 0 r
    = Some (nan, [(r, nan, nan)]).
Proof.
  intros Hdr.
  assert (Hup : Radius_update r nan = nan).
  { unfold Radius_update.
    change (sub r nan) with (r - nan). rewrite b64_sub_nan. reflexivity. }
  unfold Radius. change Radius_fuel with (S (Z.to_nat nmax)).
  cbn [Radius_loop Radius_run].
  change (0 + 1 >? nmax)%Z with false. cbn iota.
  rewrite Hdr, Hup.
  change (ltb epsilon (fabs nan)) with false. done.
Qed.

Lemma Radius_nan_step_b64_witness :
  Radius 0 0 0 5454 (dec 14 2) 56 28.5 = Some nan.
Proof.
  apply (Radius_nan_step_b64 0 0 0 5454 (dec 14 2) 56 28.5).
  vm_compute. reflexivity.
Defined.

End NotANumber.

(** ** [Radius] and [Saddle] over the reals: what a caller can rely on *)

Section RealSolvers.
Local Open Scope R_scope.

(** X4. A starting radius that already lies on the equipotential, that
    is with [psi = psi0] at [r0·(cosx, cosy, cosz)] and a derivative along
    the ray that is not zero, is returned as it is after a single pass. *)
Theorem Radius_on_the_surface (cosx cosy cosz psi0 r0 q qp1by2om2 : R) :
  0 <= r0 ->
  psi_of (Potential (r0 * cosx) (r0 * cosy) (r0 * cosz) q qp1by2om2) = psi0 ->
  dpsidr_of cosx cosy cosz
    (Potential (r0 * cosx) (r0 * cosy) (r0 * cosz) q qp1by2om2) <> 0 ->
  Radius cosx cosy cosz psi0 r0 q qp1by2om2 = Some r0 /\
  Radius_run Radius_fuel cosx cosy cosz psi0 q qp1by2om2 0 r0
    = Some (r0, [(r0, 0, r0)]).
Proof.
  intros Hr0 Hpsi _.
  assert (Hdr : Radius_dr cosx cosy cosz psi0 r0 q qp1by2om2 = 0).
  { rewrite Radius_dr_Potential. rewrite Hpsi. unfold Rdiv. ring. }
  assert (Hup : Radius_update r0 0 = r0).
  { destruct (Radius_update_R r0 0) as [[Hneg _]|[_ ->]]; lra. }
  assert (Htest : ltb (epsilon (F := R)) (fabs 0) = false).
  { change (Rltb epsilon (Rabs 0) = false). apply Rltb_false.
    rewrite epsilon_R, Rabs_R0. lra. }
  unfold Radius. change Radius_fuel with (S (Z.to_nat nmax)).
  cbn [Radius_loop Radius_run].
  change (0 + 1 >? nmax)%Z with false. cbn iota.
  rewrite Hdr, Hup, Htest. done.
Qed.

Lemma Radius_on_the_surface_witness :
  Radius (F := R) 0 0 1 1 1 0 0 = Some 1.
Proof.
  apply (Radius_on_the_surface 0 0 1 1 1 0 0); [lra| |]; to_R;
    replace (1 * 0 * (1 * 0) + 1 * 0 * (1 * 0) + 1 * 1 * (1 * 1)) with 1
      by ring;
    rewrite sqrt_1; unfold Rdiv; rewrite ?Rmult_1_l, Rinv_1; lra.
Defined.

(** X5. [Potential] is symmetric under the two mirrors [y ↦ −y] and
    [z ↦ −z]: [rc], [rx], [psi], [dpsi] and [dpsidx] are unchanged, the
    gradient component along the mirrored axis changes sign and the other
    one does not. *)
Theorem Potential_mirror (x y z q qp1by2om2 : R) :
  let s := Potential x y z q qp1by2om2 in
  let sy := Potential x (- y) z q qp1by2om2 in
  let sz := Potential x y (- z) q qp1by2om2 in
  (rc_of sy = rc_of s /\ rx_of sy = rx_of s /\ psi_of sy = psi_of s /\
   dpsi_of sy = dpsi_of s /\ dpsidx_of sy = dpsidx_of s /\
   dpsidy_of sy = - dpsidy_of s /\ dpsidz_of sy = dpsidz_of s) /\
  (rc_of sz = rc_of s /\ rx_of sz = rx_of s /\ psi_of sz = psi_of s /\
   dpsi_of sz = dpsi_of s /\ dpsidx_of sz = dpsidx_of s /\
   dpsidy_of sz = dpsidy_of s /\ dpsidz_of sz = - dpsidz_of s).
Proof.
  intros s sy sz; subst s sy sz. cbv [dpsidy_of dpsidz_of]. to_R.
  replace (x * x + - y * - y + z * z) with (x * x + y * y + z * z) by ring.
  replace (x * x + y * y + - z * - z) with (x * x + y * y + z * z) by ring.
  repeat split; unfold Rdiv; ring.
Qed.

(** The step of [Radius] does not see the sign of [cosy] or of [cosz]. *)
Lemma Radius_dr_mirror (cosx cosy cosz psi0 r q qp1by2om2 : R) :
  Radius_dr cosx (- cosy) cosz psi0 r q qp1by2om2
  = Radius_dr cosx cosy cosz psi0 r q qp1by2om2 /\
  Radius_dr cosx cosy (- cosz) psi0 r q qp1by2om2
  = Radius_dr cosx cosy cosz psi0 r q qp1by2om2.
Proof.
  to_R.
  replace (r * cosx * (r * cosx) + r * - cosy * (r * - cosy)
           + r * cosz * (r * cosz))
    with (r * cosx * (r * cosx) + r * cosy * (r * cosy)
          + r * cosz * (r * cosz)) by ring.
  replace (r * cosx * (r * cosx) + r * cosy * (r * cosy)
           + r * - cosz * (r * - cosz))
    with (r * cosx * (r * cosx) + r * cosy * (r * cosy)
          + r * cosz * (r * cosz)) by ring.
  split; f_equal; unfold Rdiv; ring.
Qed.

Lemma Radius_loop_dr_ext (c1 c2 c3 d1 d2 d3 psi0 q qp1by2om2 : R) :
  (forall r, Radius_dr c1 c2 c3 psi0 r q qp1by2om2
             = Radius_dr d1 d2 d3 psi0 r q qp1by2om2) ->
  forall fuel i r,
    Radius_loop fuel c1 c2 c3 psi0 q qp1by2om2 i r
    = Radius_loop fuel d1 d2 d3 psi0 q qp1by2om2 i r.
Proof.
  intros Hdr. induction fuel as [|fuel IH]; intros i r; [done|].
  cbn [Radius_loop]. rewrite Hdr, IH. reflexivity.
Qed.

(** X6. Mirrored directions give the same radius: [Radius] returns the
    same value for [(cosx, −cosy, cosz)] and for [(cosx, cosy, −cosz)] as
    for [(cosx, cosy, cosz)]. *)
Theorem Radius_mirror (cosx cosy cosz psi0 r q qp1by2om2 : R) :
  Radius cosx (- cosy) cosz psi0 r q qp1by2om2
  = Radius cosx cosy cosz psi0 r q qp1by2om2 /\
  Radius cosx cosy (- cosz) psi0 r q qp1by2om2
  = Radius cosx cosy cosz psi0 r q qp1by2om2.
Proof.
  unfold Radius.
  split;
    apply (Radius_loop_dr_ext _ _ _ cosx cosy cosz psi0 q qp1by2om2);
    intros r';
    pose proof (Radius_dr_mirror cosx cosy cosz psi0 r' q qp1by2om2)
      as [Hy Hz]; assumption.
Qed.

(** X7. [Get_saddle] returns the quantity the loop of [Saddle] tests:
    the step of one pass of [Saddle] from [x], for the coefficient derived
    from [omega], divided by the new [x].  [Saddle] makes another pass from
    [x] exactly when [|Get_saddle(x, q, omega)| > 0.00001]. *)
Theorem Get_saddle_is_the_loop_test (x q omega : R) :
  let '(dx, x') := Saddle_step x q (qp1by2om2_of q omega) in
  Get_saddle x q omega = dx / x' /\
  forall fuel,
    Saddle_loop (S fuel) x q (qp1by2om2_of q omega)
    = if Rltb 1e-5 (Rabs (Get_saddle x q omega))
      then Saddle_loop fuel x' q (qp1by2om2_of q omega)
      else Some x'.
Proof.
  destruct (Saddle_step_Potential x q (qp1by2om2_of q omega)) as [_ Hstep].
  rewrite Hstep.
  assert (Hget : Get_saddle x q omega
    = (- dpsidx_of (Potential x 0 0 q (qp1by2om2_of q omega))
       / (dpsi_of (Potential x 0 0 q (qp1by2om2_of q omega))
          + 3 * (x ^ 2 / Rabs x ^ 5
                 + q * (x - 1) ^ 2
                   / rx_of (Potential x 0 0 q (qp1by2om2_of q omega)) ^ 5)
          + 2 * qp1by2om2_of q omega))
      / (x + - dpsidx_of (Potential x 0 0 q (qp1by2om2_of q omega))
             / (dpsi_of (Potential x 0 0 q (qp1by2om2_of q omega))
                + 3 * (x ^ 2 / Rabs x ^ 5
                       + q * (x - 1) ^ 2
                         / rx_of (Potential x 0 0 q (qp1by2om2_of q omega)) ^ 5)
                + 2 * qp1by2om2_of q omega))).
  { assert (Hrc : R_sqrt.sqrt (x * x + 0 * 0 + 0 * 0) = Rabs x).
    { replace (x * x + 0 * 0 + 0 * 0) with (Rsqr x) by (unfold Rsqr; ring).
      apply sqrt_Rsqr_abs. }
    to_R. rewrite Hrc.
    set (rc := Rabs x).
    set (rx := R_sqrt.sqrt (x * x + 0 * 0 + 0 * 0 + 1 - 2 * x)).
    replace (rc ^ 5) with (rc * rc * rc * rc * rc) by ring.
    replace (rx ^ 5) with (rx * rx * rx * rx * rx) by ring.
    replace (x ^ 2) with (x * x) by ring.
    replace ((x - 1) ^ 2) with ((x - 1) * (x - 1)) by ring.
    reflexivity. }
  split; [exact Hget|].
  intros fuel. rewrite Saddle_loop_S, Hstep, Hget, <- epsilon_R. reflexivity.
Qed.

End RealSolvers.

(** ** The gradient that [Potential] returns is the gradient of [psi] *)

Section Gradient.
Local Open Scope R_scope.

(** Derivatives, for functions written as abstractions. *)
Lemma dlim_eq (f : R -> R) (x l l' : R) :
  derivable_pt_lim f x l -> l = l' -> derivable_pt_lim f x l'.
Proof. by intros Hf <-. Qed.

Lemma dlim_const (c x : R) : derivable_pt_lim (fun _ => c) x 0.
Proof. exact (derivable_pt_lim_const c x). Qed.

Lemma dlim_plus (f g : R -> R) (x l1 l2 : R) :
  derivable_pt_lim f x l1 -> derivable_pt_lim g x l2 ->
  derivable_pt_lim (fun u => f u + g u) x (l1 + l2).
Proof. exact (derivable_pt_lim_plus f g x l1 l2). Qed.

Lemma dlim_minus (f g : R -> R) (x l1 l2 : R) :
  derivable_pt_lim f x l1 -> derivable_pt_lim g x l2 ->
  derivable_pt_lim (fun u => f u - g u) x (l1 - l2).
Proof. exact (derivable_pt_lim_minus f g x l1 l2). Qed.

Lemma dlim_mult (f g : R -> R) (x l1 l2 : R) :
  derivable_pt_lim f x l1 -> derivable_pt_lim g x l2 ->
  derivable_pt_lim (fun u => f u * g u) x (l1 * g x + f x * l2).
Proof. exact (derivable_pt_lim_mult f g x l1 l2). Qed.

Lemma dlim_scal (c : R) (f : R -> R) (x l : R) :
  derivable_pt_lim f x l -> derivable_pt_lim (fun u => c * f u) x (c * l).
Proof.
  intros Hf. apply (dlim_eq _ _ (0 * f x + c * l)); [|ring].
  exact (dlim_mult (fun _ => c) f x 0 l (dlim_const c x) Hf).
Qed.

(** [u ↦ 1/sqrt(g u)] where [g] is positive. *)
Lemma dlim_inv_sqrt (g : R -> R) (t g' : R) :
  derivable_pt_lim g t g' -> 0 < g t ->
  derivable_pt_lim (fun u => / R_sqrt.sqrt (g u)) t
    (- g' / (2 * R_sqrt.sqrt (g t) ^ 3)).
Proof.
  intros Hg Hpos.
  pose proof (sqrt_lt_R0 _ Hpos) as Hs.
  pose proof (derivable_pt_lim_comp g R_sqrt.sqrt t g' _ Hg
                (derivable_pt_lim_sqrt (g t) Hpos)) as Hcomp.
  pose proof (derivable_pt_lim_div (fct_cte 1) (comp R_sqrt.sqrt g) t 0 _
                (derivable_pt_lim_const 1 t) Hcomp) as Hdiv.
  unfold comp in Hdiv at 2. specialize (Hdiv (Rgt_not_eq _ _ Hs)).
  apply (derivable_pt_lim_ext
           (fct_cte 1 / comp R_sqrt.sqrt g)%F); [|eapply dlim_eq; [exact Hdiv|]].
  - intros z. unfold div_fct, fct_cte, comp, Rdiv. ring.
  - unfold fct_cte, comp, Rsqr. field. lra.
Qed.

(** [u ↦ 1/sqrt(g u)³], with the cube written as the code writes it. *)
Lemma dlim_inv_sqrt3 (g : R -> R) (t g' : R) :
  derivable_pt_lim g t g' -> 0 < g t ->
  derivable_pt_lim
    (fun u => / (R_sqrt.sqrt (g u) * R_sqrt.sqrt (g u) * R_sqrt.sqrt (g u))) t
    (- 3 * g' / (2 * R_sqrt.sqrt (g t) ^ 5)).
Proof.
  intros Hg Hpos.
  pose proof (sqrt_lt_R0 _ Hpos) as Hs.
  pose proof (dlim_inv_sqrt g t g' Hg Hpos) as H1.
  pose proof (dlim_mult _ _ t _ _ (dlim_mult _ _ t _ _ H1 H1) H1) as H3.
  cbv beta in H3.
  apply (derivable_pt_lim_ext
    (fun u => / R_sqrt.sqrt (g u) * / R_sqrt.sqrt (g u) * / R_sqrt.sqrt (g u)));
    [|eapply dlim_eq; [exact H3|]].
  - intros z. rewrite !Rinv_mult. reflexivity.
  - field. lra.
Qed.

Lemma sqrt_pos_arg (a : R) : 0 < R_sqrt.sqrt a -> 0 < a.
Proof.
  intros Hs. destruct (Rle_or_lt a 0) as [Hle|Hlt]; [|done].
  rewrite (sqrt_neg_0 a Hle) in Hs. lra.
Qed.

(** The chain rule for [psi] along a curve [(X u, Y u, Z u)] that stays
    off the two centres. *)
Lemma dlim_psi_along (X Y Z : R -> R) (t X' Y' Z' q qp1by2om2 : R) :
  derivable_pt_lim X t X' ->
  derivable_pt_lim Y t Y' ->
  derivable_pt_lim Z t Z' ->
  let s := Potential (X t) (Y t) (Z t) q qp1by2om2 in
  0 < rc_of s -> 0 < rx_of s ->
  derivable_pt_lim
    (fun u => psi_of (Potential (X u) (Y u) (Z u) q qp1by2om2)) t
    (dpsidx_of s * X' + dpsidy_of s * Y' + dpsidz_of s * Z').
Proof.
  intros HX HY HZ s Hrc Hrx. subst s.
  cbv [dpsidy_of dpsidz_of]. cbv [dpsidy_of dpsidz_of] in Hrc, Hrx.
  revert Hrc Hrx. to_R. intros Hrc Hrx.
  set (g1 := fun u => X u * X u + Y u * Y u + Z u * Z u).
  set (g2 := fun u => g1 u + 1 - 2 * X u).
  assert (Hg1 : derivable_pt_lim g1 t (2 * X t * X' + 2 * Y t * Y' + 2 * Z t * Z')).
  { eapply dlim_eq;
      [exact (dlim_plus _ _ t _ _
                (dlim_plus _ _ t _ _ (dlim_mult X X t _ _ HX HX)
                   (dlim_mult Y Y t _ _ HY HY))
                (dlim_mult Z Z t _ _ HZ HZ))|ring]. }
  assert (Hg2 : derivable_pt_lim g2 t
                  (2 * X t * X' + 2 * Y t * Y' + 2 * Z t * Z' - 2 * X')).
  { eapply dlim_eq;
      [exact (dlim_minus _ _ t _ _
                (dlim_plus _ _ t _ _ Hg1 (dlim_const 1 t))
                (dlim_scal 2 X t _ HX))|ring]. }
  change (0 < R_sqrt.sqrt (g1 t)) in Hrc.
  change (0 < R_sqrt.sqrt (g2 t)) in Hrx.
  pose proof (sqrt_pos_arg _ Hrc) as Hp1.
  pose proof (sqrt_pos_arg _ Hrx) as Hp2.
  pose proof (dlim_inv_sqrt g1 t _ Hg1 Hp1) as Hi1.
  pose proof (dlim_inv_sqrt g2 t _ Hg2 Hp2) as Hi2.
  pose proof (dlim_minus _ _ t _ _ Hg1 (dlim_mult Z Z t _ _ HZ HZ)) as Hxy.
  pose proof (dlim_plus _ _ t _ _
    (dlim_minus _ _ t _ _
       (dlim_plus _ _ t _ _ Hi1 (dlim_scal q _ t _ Hi2))
       (dlim_scal q X t _ HX))
    (dlim_scal qp1by2om2 _ t _ Hxy)) as Hpsi.
  cbv beta in Hpsi.
  apply (derivable_pt_lim_ext
    (fun u => / R_sqrt.sqrt (g1 u) + q * / R_sqrt.sqrt (g2 u) - q * X u
              + qp1by2om2 * (g1 u - Z u * Z u)));
    [|eapply dlim_eq; [exact Hpsi|]].
  - intros z. unfold g2, g1, Rdiv. ring.
  - fold (g1 t). fold (g2 t).
    set (rc := R_sqrt.sqrt (g1 t)) in *. set (rx := R_sqrt.sqrt (g2 t)) in *.
    field. lra.
Qed.

(** X8. Off the two centres ([rc > 0] and [rx > 0]), the three values
    [dpsidx], [dpsidy], [dpsidz] that [Potential] returns are the partial
    derivatives of the [psi] it returns, with respect to [x], [y] and
    [z]. *)
Theorem Potential_gradient (x y z q qp1by2om2 : R) :
  let s := Potential x y z q qp1by2om2 in
  0 < rc_of s -> 0 < rx_of s ->
  derivable_pt_lim (fun u => psi_of (Potential u y z q qp1by2om2)) x
    (dpsidx_of s) /\
  derivable_pt_lim (fun u => psi_of (Potential x u z q qp1by2om2)) y
    (dpsidy_of s) /\
  derivable_pt_lim (fun u => psi_of (Potential x y u q qp1by2om2)) z
    (dpsidz_of s).
Proof.
  intros s Hrc Hrx. subst s.
  pose proof (derivable_pt_lim_id x) as Hx.
  pose proof (derivable_pt_lim_id y) as Hy.
  pose proof (derivable_pt_lim_id z) as Hz.
  split; [|split].
  - eapply dlim_eq;
      [exact (dlim_psi_along id (fun _ => y) (fun _ => z) x 1 0 0 q qp1by2om2
                Hx (dlim_const y x) (dlim_const z x) Hrc Hrx)|].
    unfold id. ring.
  - eapply dlim_eq;
      [exact (dlim_psi_along (fun _ => x) id (fun _ => z) y 0 1 0 q qp1by2om2
                (dlim_const x y) Hy (dlim_const z y) Hrc Hrx)|].
    unfold id. ring.
  - eapply dlim_eq;
      [exact (dlim_psi_along (fun _ => x) (fun _ => y) id z 0 0 1 q qp1by2om2
                (dlim_const x z) (dlim_const y z) Hz Hrc Hrx)|].
    unfold id. ring.
Qed.

Lemma Potential_gradient_witness :
  derivable_pt_lim (fun u => psi_of (Potential (F := R) 0 0 u 1 1)) 1
    (dpsidz_of (Potential (F := R) 0 0 1 1 1)).
Proof.
  assert (Hs : R_sqrt.sqrt (0 * 0 + 0 * 0 + 1 * 1) = 1)
    by (replace (0 * 0 + 0 * 0 + 1 * 1) with 1 by ring; apply sqrt_1).
  apply (Potential_gradient 0 0 1 1 1).
  - to_R. rewrite Hs. lra.
  - to_R. apply sqrt_lt_R0. lra.
Defined.

(** X9. The quotient of a pass of [Radius] is the Newton quotient for
    the equation [psi(r·direction) = psi0] in [r]: off the two centres,
    the [dpsidr] it divides by is the derivative of [psi] along the ray,
    so [dr = (psi(r) − psi0)/psi'(r)]. *)
Theorem Radius_step_is_Newton (cosx cosy cosz psi0 r q qp1by2om2 : R) :
  let psi_ray :=
    fun u => psi_of (Potential (u * cosx) (u * cosy) (u * cosz) q qp1by2om2) in
  let s := Potential (r * cosx) (r * cosy) (r * cosz) q qp1by2om2 in
  0 < rc_of s -> 0 < rx_of s ->
  exists l,
    derivable_pt_lim psi_ray r l /\
    l = dpsidr_of cosx cosy cosz s /\
    Radius_dr cosx cosy cosz psi0 r q qp1by2om2 = (psi_ray r - psi0) / l.
Proof.
  intros psi_ray s Hrc Hrx. exists (dpsidr_of cosx cosy cosz s).
  split; [|split; [done|apply Radius_dr_Potential]].
  assert (Hlin : forall c, derivable_pt_lim (fun u => u * c) r c).
  { intros c. eapply dlim_eq;
      [exact (dlim_mult id (fun _ => c) r 1 0 (derivable_pt_lim_id r)
                (dlim_const c r))|unfold id; ring]. }
  eapply dlim_eq;
    [exact (dlim_psi_along (fun u => u * cosx) (fun u => u * cosy)
              (fun u => u * cosz) r cosx cosy cosz q qp1by2om2
              (Hlin cosx) (Hlin cosy) (Hlin cosz) Hrc Hrx)|].
  reflexivity.
Qed.

Lemma Radius_step_is_Newton_witness :
  exists l,
    derivable_pt_lim
      (fun u => psi_of (Potential (F := R) (u * 0) (u * 0) (u * 1) 1 1)) 1 l /\
    Radius_dr (F := R) 0 0 1 5 1 1 1
    = (psi_of (Potential (F := R) (1 * 0) (1 * 0) (1 * 1) 1 1) - 5) / l.
Proof.
  assert (Hs : R_sqrt.sqrt (1 * 0 * (1 * 0) + 1 * 0 * (1 * 0) + 1 * 1 * (1 * 1))
               = 1).
  { replace (1 * 0 * (1 * 0) + 1 * 0 * (1 * 0) + 1 * 1 * (1 * 1)) with 1
      by ring. apply sqrt_1. }
  destruct (Radius_step_is_Newton 0 0 1 5 1 1 1) as (l & Hl & _ & Hdr).
  - to_R. rewrite Hs. lra.
  - to_R. apply sqrt_lt_R0. lra.
  - exists l. split; [exact Hl|exact Hdr].
Defined.

(** X10. A pass of [Saddle] is the Newton step for the equation
    [dpsidx(x, 0, 0) = 0]: away from the two centres ([x] neither [0] nor
    [1]), the [d2psidx2] it divides by is the derivative along the axis of
    the [dpsidx] that [Potential] returns, so [dx = −dpsidx/dpsidx']. *)
Theorem Saddle_step_is_Newton (x q qp1by2om2 : R) :
  let f := fun u => dpsidx_of (Potential u 0 0 q qp1by2om2) in
  x <> 0 -> x <> 1 ->
  exists l,
    derivable_pt_lim f x l /\
    Saddle_step x q qp1by2om2 = (- f x / l, x + - f x / l).
Proof.
  intros f Hx0 Hx1.
  destruct (Saddle_step_Potential x q qp1by2om2) as [Hrc Hstep].
  eexists. split; [|exact Hstep].
  subst f. revert Hrc. to_R. intros Hrc. rewrite <- Hrc.
  set (g1 := fun u : R => u * u + 0 * 0 + 0 * 0).
  set (g2 := fun u : R => g1 u + 1 - 2 * u).
  assert (Hg1 : derivable_pt_lim g1 x (2 * x)).
  { eapply dlim_eq;
      [exact (dlim_plus _ _ x _ _
                (dlim_plus _ _ x _ _
                   (dlim_mult id id x 1 1 (derivable_pt_lim_id x)
                      (derivable_pt_lim_id x))
                   (dlim_const (0 * 0) x))
                (dlim_const (0 * 0) x))|unfold id; ring]. }
  assert (Hg2 : derivable_pt_lim g2 x (2 * x - 2)).
  { eapply dlim_eq;
      [exact (dlim_minus _ _ x _ _
                (dlim_plus _ _ x _ _ Hg1 (dlim_const 1 x))
                (dlim_scal 2 id x 1 (derivable_pt_lim_id x)))|ring]. }
  assert (Hp1 : 0 < g1 x) by (unfold g1; nra).
  assert (Hp2 : 0 < g2 x) by (unfold g2, g1; nra).
  pose proof (dlim_inv_sqrt3 g1 x _ Hg1 Hp1) as Hi1.
  pose proof (dlim_inv_sqrt3 g2 x _ Hg2 Hp2) as Hi2.
  pose proof (sqrt_lt_R0 _ Hp1) as Hs1.
  pose proof (sqrt_lt_R0 _ Hp2) as Hs2.
  pose proof (dlim_plus _ _ x _ _
    (dlim_mult id _ x 1 _ (derivable_pt_lim_id x)
       (dlim_plus _ _ x _ _
          (dlim_minus _ _ x _ _ (dlim_scal (-1) _ x _ Hi1)
             (dlim_scal q _ x _ Hi2))
          (dlim_const (2 * qp1by2om2) x)))
    (dlim_scal q _ x _
       (dlim_plus _ _ x _ _ (dlim_const (-1) x) Hi2))) as Hf.
  cbv beta in Hf.
  eapply derivable_pt_lim_ext; [|eapply dlim_eq; [exact Hf|]].
  - intros z. unfold g2, g1, id, Rdiv. ring.
  - unfold id. fold (g1 x). fold (g2 x).
    set (rc := R_sqrt.sqrt (g1 x)) in *. set (rx := R_sqrt.sqrt (g2 x)) in *.
    field. lra.
Qed.

Lemma Saddle_step_is_Newton_witness :
  exists l,
    derivable_pt_lim
      (fun u => dpsidx_of (Potential (F := R) u 0 0 56 (57 / 2))) (1 / 2) l /\
    Saddle_step (F := R) (1 / 2) 56 (57 / 2)
    = (- dpsidx_of (Potential (F := R) (1 / 2) 0 0 56 (57 / 2)) / l,
       1 / 2 + - dpsidx_of (Potential (F := R) (1 / 2) 0 0 56 (57 / 2)) / l).
Proof.
  apply (Saddle_step_is_Newton (1 / 2) 56 (57 / 2)); lra.
Defined.

End Gradient.

(** ** What leaving the loop of [Saddle] means *)

Section SaddleResult.
Local Open Scope R_scope.





(** X12. Started on a point of the axis where [dpsidx] is already zero
    (and [d2psidx2] is not, and which is not the centre of the primary),
    [Saddle] makes one pass and returns that point. *)
Theorem Saddle_stationary_start (x0 q qp1by2om2 : R) :
  let s := Potential x0 0 0 q qp1by2om2 in
  x0 <> 0 ->
  dpsidx_of s = 0 ->
  dpsi_of s + 3 * (x0 ^ 2 / Rabs x0 ^ 5 + q * (x0 - 1) ^ 2 / rx_of s ^ 5)
    + 2 * qp1by2om2 <> 0 ->
  Saddle_loop 1 x0 q qp1by2om2 = Some x0 /\ Saddle x0 q qp1by2om2 x0.
Proof.
  intros s Hx0 Hstat _.
  assert (Hloop : Saddle_loop 1 x0 q qp1by2om2 = Some x0).
  { destruct (Saddle_step_Potential x0 q qp1by2om2) as [_ Hstep].
    fold s in Hstep. rewrite Hstat in Hstep.
    rewrite Saddle_loop_S, Hstep.
    match goal with
    | |- context [(- 0 / ?d)] => replace (- 0 / d) with 0 by (unfold Rdiv; ring)
    end.
    rewrite Rplus_0_r.
    change (ltb epsilon (fabs (div 0 x0))) with (Rltb epsilon (Rabs (0 / x0))).
    replace (0 / x0) with 0 by (unfold Rdiv; ring). rewrite Rabs_R0.
    assert (Hf : Rltb epsilon 0 = false)
      by (apply Rltb_false; rewrite epsilon_R; lra).
    rewrite Hf. reflexivity. }
  split; [exact Hloop|]. exists 1%nat. exact Hloop.
Qed.

Lemma Saddle_stationary_start_witness :
  Saddle_loop (F := R) 1 2 0 (1 / 16) = Some 2 /\ Saddle (F := R) 2 0 (1 / 16) 2.
Proof.
  assert (Hs4 : R_sqrt.sqrt (2 * 2 + 0 * 0 + 0 * 0) = 2).
  { replace (2 * 2 + 0 * 0 + 0 * 0) with (2 * 2) by ring.
    apply sqrt_square. lra. }
  assert (Hs1 : R_sqrt.sqrt (2 * 2 + 0 * 0 + 0 * 0 + 1 - 2 * 2) = 1).
  { replace (2 * 2 + 0 * 0 + 0 * 0 + 1 - 2 * 2) with 1 by ring.
    apply sqrt_1. }
  apply (Saddle_stationary_start 2 0 (1 / 16)).
  - lra.
  - to_R. rewrite Hs4, Hs1. field.
  - to_R. rewrite Hs4, Hs1. rewrite (Rabs_pos_eq 2) by lra.
    apply Rgt_not_eq. field_simplify. lra.
Defined.

End SaddleResult.

(** ** The orbital utilities *)

Section OrbitalUtilities.
Local Open Scope R_scope.

Lemma Rpower_third_cube (a : R) : 0 < a -> Rpower a (1 / 3) ^ 3 = a.
Proof.
  intros Ha.
  rewrite <- (Rpower_pow 3) by (unfold Rpower; apply exp_pos).
  rewrite Rpower_mult.
  replace (1 / 3 * INR 3) with 1 by (simpl; field).
  by apply Rpower_1.
Qed.

Lemma cube_inj_pos (u v : R) : 0 < u -> 0 < v -> u ^ 3 = v ^ 3 -> u = v.
Proof.
  intros Hu Hv Heq.
  assert (Hfac : (u - v) * (u * u + u * v + v * v) = 0) by (ring_simplify; lra).
  apply Rmult_integral in Hfac as [Hd|Hs]; [lra|nra].
Qed.

(** The sum of the two cube roots of [Mass_ratio] solves the depressed
    cubic [y³ − y/3 = 2r]. *)
Lemma Cardano_sum (r : R) :
  1 / 27 < r ->
  let d := R_sqrt.sqrt ((-1 / 9) ^ 3 + r ^ 2) in
  let y := Rpower (r + d) (1 / 3) + Rpower (r - d) (1 / 3) in
  y ^ 3 - y / 3 = 2 * r.
Proof.
  intros Hr d y.
  assert (HD : 0 < (-1 / 9) ^ 3 + r ^ 2) by nra.
  assert (Hd2 : d * d = (-1 / 9) ^ 3 + r ^ 2) by (apply sqrt_sqrt; lra).
  assert (Hd : 0 < d) by (apply sqrt_lt_R0; exact HD).
  assert (Hdr : d < r) by nra.
  set (s := Rpower (r + d) (1 / 3)) in *.
  set (t := Rpower (r - d) (1 / 3)) in *.
  assert (Hs : 0 < s) by (unfold s, Rpower; apply exp_pos).
  assert (Ht : 0 < t) by (unfold t, Rpower; apply exp_pos).
  assert (Hs3 : s ^ 3 = r + d) by (apply Rpower_third_cube; lra).
  assert (Ht3 : t ^ 3 = r - d) by (apply Rpower_third_cube; lra).
  assert (Hst : s * t = 1 / 9).
  { apply cube_inj_pos; [nra|lra|].
    replace ((s * t) ^ 3) with (s ^ 3 * t ^ 3) by ring.
    rewrite Hs3, Ht3. nra. }
  subst y.
  replace ((s + t) ^ 3) with (s ^ 3 + t ^ 3 + 3 * (s * t) * (s + t)) by ring.
  rewrite Hs3, Ht3, Hst. field.
Qed.

(** X13. For a positive mass function, a positive [M_ns] and an
    inclination with [sin(incl) > 0], [Mass_ratio] returns a positive
    root [q] of the equation it is meant to solve,
    [mass_function · q·(1+q)² = M_ns · sin³(incl)], and [Mass_companion]
    at that [q] is the mass [M_ns/q]: the two functions are consistent
    with each other ([q · Mass_companion = M_ns]). *)
Theorem Mass_ratio_solves_the_cubic (mass_function M_ns incl : R) :
  0 < mass_function -> 0 < M_ns -> 0 < sin incl ->
  let q := Mass_ratio mass_function M_ns incl in
  0 < q /\
  mass_function * (q * (1 + q) ^ 2) = M_ns * sin incl ^ 3 /\
  q * Mass_companion mass_function q incl = M_ns.
Proof.
  intros Hmf Hns Hsin q.
  set (A := M_ns * sin incl ^ 3 / mass_function).
  assert (HA : 0 < A).
  { unfold A. apply Rdiv_lt_0_compat; [|done].
    apply Rmult_lt_0_compat; [done|]. apply pow_lt. exact Hsin. }
  assert (Hr : 0.5 * M_ns * sin incl ^ 3 / mass_function + 1 / 27
               = A / 2 + 1 / 27).
  { unfold A. replace 0.5 with (1 / 2) by lra. field. lra. }
  pose proof (Cardano_sum (A / 2 + 1 / 27)) as Hy.
  cbv zeta in Hy. specialize (Hy ltac:(lra)).
  assert (Hq : q = Rpower (A / 2 + 1 / 27
                       + R_sqrt.sqrt ((-1 / 9) ^ 3 + (A / 2 + 1 / 27) ^ 2))
                     (1 / 3)
                   + Rpower (A / 2 + 1 / 27
                       - R_sqrt.sqrt ((-1 / 9) ^ 3 + (A / 2 + 1 / 27) ^ 2))
                       (1 / 3) - 2 / 3).
  { unfold q, Mass_ratio. cbv zeta. rewrite Hr. reflexivity. }
  set (y := Rpower _ _ + Rpower _ _) in *.
  assert (Hcubic : q * (1 + q) ^ 2 = A).
  { rewrite Hq. replace ((y - 2 / 3) * (1 + (y - 2 / 3)) ^ 2)
      with (y ^ 3 - y / 3 - 2 / 27) by field. lra. }
  assert (Hpos : 0 < q).
  { destruct (Rle_or_lt q 0) as [Hle|Hlt]; [|exact Hlt].
    pose proof (pow2_ge_0 (1 + q)) as Hsq.
    assert (q * (1 + q) ^ 2 <= 0) by nra. lra. }
  split; [exact Hpos|]. split.
  - rewrite Hcubic. unfold A. field. lra.
  - unfold Mass_companion.
    replace (q * (mass_function * (1 + q) ^ 2 / sin incl ^ 3))
      with (mass_function * (q * (1 + q) ^ 2) / sin incl ^ 3)
      by (field; lra).
    rewrite Hcubic. unfold A. field. split; lra.
Qed.

Lemma Mass_ratio_solves_the_cubic_witness :
  0 < Mass_ratio 1 4 (PI / 2) /\
  1 * (Mass_ratio 1 4 (PI / 2) * (1 + Mass_ratio 1 4 (PI / 2)) ^ 2)
  = 4 * sin (PI / 2) ^ 3 /\
  Mass_ratio 1 4 (PI / 2) * Mass_companion 1 (Mass_ratio 1 4 (PI / 2)) (PI / 2)
  = 4.
Proof.
  apply (Mass_ratio_solves_the_cubic 1 4 (PI / 2)); [lra|lra|].
  rewrite sin_PI2. lra.
Defined.

(** X14. For a mass function that is not negative, the value of
    [Mass_companion] at [incl = π/2] is [mass_function·(1+q)²], and it is
    the smallest value over all inclinations with [sin(incl) > 0]. *)
Theorem Mass_companion_minimum (mass_function q incl : R) :
  0 <= mass_function -> 0 < sin incl ->
  Mass_companion mass_function q (PI / 2) = mass_function * (1 + q) ^ 2 /\
  Mass_companion mass_function q (PI / 2)
  <= Mass_companion mass_function q incl.
Proof.
  intros Hmf Hsin.
  assert (Hedge : Mass_companion mass_function q (PI / 2)
                  = mass_function * (1 + q) ^ 2).
  { unfold Mass_companion. rewrite sin_PI2. field. }
  split; [exact Hedge|]. rewrite Hedge. unfold Mass_companion.
  assert (Hs1 : sin incl <= 1) by apply SIN_bound.
  assert (Hs3 : 0 < sin incl ^ 3) by (apply pow_lt; exact Hsin).
  assert (Hs3' : sin incl ^ 3 <= 1).
  { replace 1 with (1 ^ 3) by ring. apply pow_incr. lra. }
  assert (Ha : 0 <= mass_function * (1 + q) ^ 2).
  { apply Rmult_le_pos; [exact Hmf|apply pow2_ge_0]. }
  set (a := mass_function * (1 + q) ^ 2) in *.
  apply (Rmult_le_reg_r (sin incl ^ 3)); [exact Hs3|].
  replace (a / sin incl ^ 3 * sin incl ^ 3) with a by (field; lra).
  nra.
Qed.

Lemma Mass_companion_minimum_witness :
  Mass_companion 1 1 (PI / 2) = 1 * (1 + 1) ^ 2 /\
  Mass_companion 1 1 (PI / 2) <= Mass_companion 1 1 (PI / 2).
Proof.
  apply (Mass_companion_minimum 1 1 (PI / 2)); [lra|].
  rewrite sin_PI2. lra.
Defined.

(** X15. Given the projected semi-major axis [asini = a·sin(incl)] of
    its docstring, [Orbital_separation] returns [a·(1+q)·C·100] whatever
    the inclination, as long as [sin(incl)] is not zero. *)
Theorem Orbital_separation_of_projection (C a q incl : R) :
  sin incl <> 0 ->
  Orbital_separation C (a * sin incl) q incl = a * (1 + q) * C * 100.
Proof. intros Hsin. unfold Orbital_separation. field. exact Hsin. Qed.

Lemma Orbital_separation_of_projection_witness :
  Orbital_separation 3 (2 * sin (PI / 2)) 1 (PI / 2) = 2 * (1 + 1) * 3 * 100.
Proof.
  apply (Orbital_separation_of_projection 3 2 1 (PI / 2)).
  rewrite sin_PI2. lra.
Defined.

End OrbitalUtilities.

(** ** [Err_velocity] *)

Section ErrVelocity.
Local Open Scope R_scope.
Variable fit : list R -> list R -> R * R * R.

(** The fitted parabola around its vertex. *)
Lemma poly1d_vertex (a0 a1 a2 v : R) :
  a0 <> 0 ->
  poly1d (a0, a1, a2) v
  = poly1d (a0, a1, a2) (-0.5 * a1 / a0) + a0 * (v - -0.5 * a1 / a0) ^ 2.
Proof.
  intros Ha0. unfold poly1d. replace (-0.5) with (-1 / 2) by lra.
  field. exact Ha0.
Qed.

(** X16. When the fit returns a parabola that opens upwards
    ([a_n[0] > 0]), the [chi2fit] that [Err_velocity] returns is the
    minimum of the fitted parabola, attained at the [vfit] it returns, and
    without [redchi2_unity] the [err_vfit] it returns is the half-width at
    which the parabola has risen by one: [p(vfit ± err_vfit) = chi2fit + 1]. *)
Theorem Err_velocity_parabola (chi2 vels : list R) (dof : R)
    (clip : option R) (normalize : bool) (y x : list R) (a0 a1 a2 : R) :
  Err_velocity_data chi2 vels dof clip normalize = Some (y, x) ->
  fit y x = (a0, a1, a2) ->
  0 < a0 ->
  exists chi2fit vfit err_vfit,
    Err_velocity fit chi2 vels dof clip normalize false
      = Some (chi2fit, vfit, err_vfit) /\
    chi2fit = poly1d (a0, a1, a2) vfit /\
    (forall v, chi2fit <= poly1d (a0, a1, a2) v) /\
    0 < err_vfit /\
    poly1d (a0, a1, a2) (vfit + err_vfit) = chi2fit + 1 /\
    poly1d (a0, a1, a2) (vfit - err_vfit) = chi2fit + 1.
Proof.
  intros Hdata Hfit Ha0.
  exists (poly1d (a0, a1, a2) (-0.5 * a1 / a0)), (-0.5 * a1 / a0),
    (R_sqrt.sqrt (1 / a0)).
  assert (Hinv : 0 < 1 / a0) by (apply Rdiv_lt_0_compat; lra).
  assert (He : R_sqrt.sqrt (1 / a0) * R_sqrt.sqrt (1 / a0) = 1 / a0)
    by (apply sqrt_sqrt; lra).
  split.
  { unfold Err_velocity. rewrite Hdata. cbn [mbind option_bind].
    rewrite Hfit. reflexivity. }
  split; [reflexivity|]. split.
  { intros v. rewrite (poly1d_vertex a0 a1 a2 v) by lra.
    pose proof (pow2_ge_0 (v - -0.5 * a1 / a0)). nra. }
  split; [by apply sqrt_lt_R0|].
  set (e := R_sqrt.sqrt (1 / a0)) in *.
  assert (Hae : a0 * (e * e) = 1) by (rewrite He; field; lra).
  split.
  - rewrite (poly1d_vertex a0 a1 a2 (_ + e)) by lra.
    replace ((-0.5 * a1 / a0 + e - -0.5 * a1 / a0) ^ 2) with (e * e) by ring.
    lra.
  - rewrite (poly1d_vertex a0 a1 a2 (_ - e)) by lra.
    replace ((-0.5 * a1 / a0 - e - -0.5 * a1 / a0) ^ 2) with (e * e) by ring.
    lra.
Qed.

(** X18. Under [redchi2_unity], with a parabola that opens upwards and
    a reduced [chi2fit/dof] that is not negative, the [err_vfit] returned
    is the half-width at which the fitted parabola has risen by
    [chi2fit/dof]: [p(vfit ± err_vfit) = chi2fit·(1 + 1/dof)]. *)
Theorem Err_velocity_redchi2_unity (chi2 vels : list R) (dof : R)
    (clip : option R) (normalize : bool) (y x : list R) (a0 a1 a2 : R) :
  Err_velocity_data chi2 vels dof clip normalize = Some (y, x) ->
  fit y x = (a0, a1, a2) ->
  0 < a0 ->
  0 <= poly1d (a0, a1, a2) (-0.5 * a1 / a0) / dof ->
  exists chi2fit vfit err_vfit,
    Err_velocity fit chi2 vels dof clip normalize true
      = Some (chi2fit, vfit, err_vfit) /\
    chi2fit = poly1d (a0, a1, a2) vfit /\
    0 <= err_vfit /\
    poly1d (a0, a1, a2) (vfit + err_vfit) = chi2fit + chi2fit / dof /\
    poly1d (a0, a1, a2) (vfit - err_vfit) = chi2fit + chi2fit / dof.
Proof.
  intros Hdata Hfit Ha0 Hred.
  set (c := poly1d (a0, a1, a2) (-0.5 * a1 / a0)) in *.
  exists c, (-0.5 * a1 / a0),
    (R_sqrt.sqrt (1 / a0) * R_sqrt.sqrt (c / dof)).
  assert (Hinv : 0 < 1 / a0) by (apply Rdiv_lt_0_compat; lra).
  assert (He : R_sqrt.sqrt (1 / a0) * R_sqrt.sqrt (1 / a0) = 1 / a0)
    by (apply sqrt_sqrt; lra).
  assert (Hc : R_sqrt.sqrt (c / dof) * R_sqrt.sqrt (c / dof) = c / dof)
    by (apply sqrt_sqrt; exact Hred).
  split.
  { unfold Err_velocity. rewrite Hdata. cbn [mbind option_bind].
    rewrite Hfit. reflexivity. }
  split; [reflexivity|].
  split; [apply Rmult_le_pos; apply sqrt_pos|].
  set (e := R_sqrt.sqrt (1 / a0)) in *. set (k := R_sqrt.sqrt (c / dof)) in *.
  assert (Hae : a0 * (e * k * (e * k)) = c / dof).
  { replace (a0 * (e * k * (e * k))) with (a0 * (e * e) * (k * k)) by ring.
    rewrite He, Hc. generalize (c / dof). intros w. field. lra. }
  split.
  - rewrite (poly1d_vertex a0 a1 a2 (_ + e * k)) by lra. fold c.
    replace ((-0.5 * a1 / a0 + e * k - -0.5 * a1 / a0) ^ 2)
      with (e * k * (e * k)) by ring.
    lra.
  - rewrite (poly1d_vertex a0 a1 a2 (_ - e * k)) by lra. fold c.
    replace ((-0.5 * a1 / a0 - e * k - -0.5 * a1 / a0) ^ 2)
      with (e * k * (e * k)) by ring.
    lra.
Qed.

(** [argmin] returns the index of an entry that is below all the others. *)
Lemma argmin_from_spec (a pre : list R) (best : R) (ibest : nat) :
  pre !! ibest = Some best ->
  Forall (fun c => best <= c) pre ->
  exists m,
    (pre ++ a) !! argmin_from best ibest (length pre) a = Some m /\
    Forall (fun c => m <= c) (pre ++ a).
Proof.
  revert pre best ibest.
  induction a as [|v a IH]; intros pre best ibest Hbest Hall.
  { exists best. rewrite app_nil_r. done. }
  cbn [argmin_from]. replace (pre ++ v :: a) with ((pre ++ [v]) ++ a)
    by (by rewrite <- app_assoc).
  replace (S (length pre)) with (length (pre ++ [v]))
    by (rewrite length_app; simpl; lia).
  destruct (Rlt_dec v best) as [Hlt|Hge].
  - apply IH.
    + by apply list_lookup_middle.
    + apply Forall_app. split.
      * eapply Forall_impl; [exact Hall|]. intros c Hc. simpl in *. lra.
      * constructor; [lra|done].
  - apply IH.
    + apply lookup_app_l_Some. exact Hbest.
    + apply Forall_app. split; [done|]. constructor; [lra|done].
Qed.

Lemma argmin_spec (a : list R) :
  a <> [] ->
  exists i m,
    argmin a = Some i /\ a !! i = Some m /\ Forall (fun c => m <= c) a.
Proof.
  destruct a as [|v a]; [done|]. intros _.
  destruct (argmin_from_spec a [v] v 0) as (m & Hm & Hall);
    [done|by constructor; [lra|]|].
  exists (argmin_from v 0 1 a), m. done.
Qed.

Lemma mask_pick_elem (inds : list bool) (a : list R) (i : nat) (v : R) :
  inds !! i = Some true -> a !! i = Some v -> v ∈ mask_pick inds a.
Proof.
  revert a i; induction inds as [|b inds IH]; intros a i Hb Hv; [done|].
  destruct a as [|w a]; [done|].
  destruct i as [|i]; simpl in *.
  - injection Hb as ->. injection Hv as ->. left.
  - destruct b; [right|]; by eapply IH.
Qed.

Lemma mask_pick_map (P : R -> bool) (a : list R) :
  Forall (fun v => P v = true) (mask_pick (map P a) a).
Proof.
  induction a as [|v a IH]; simpl; [done|].
  destruct (P v) eqn:HP; [by constructor|done].
Qed.

Lemma mask_pick_length (inds : list bool) (a b : list R) :
  length a = length b ->
  length (mask_pick inds a) = length (mask_pick inds b).
Proof.
  revert a b; induction inds as [|c inds IH]; intros a b Hlen; [done|].
  destruct a as [|v a], b as [|w b]; simpl in *; try done.
  destruct c; simpl; rewrite (IH a b) by lia; done.
Qed.

(** X17. With a [clip] that is not negative, on arrays of equal length
    that are not empty, the data [Err_velocity] hands to the fit always
    contain the point of smallest [chi2] (the first one, if several), so
    they are never empty; they are the points whose velocity lies within
    [clip] of that point's velocity, with as many [chi2] as velocities. *)
Theorem Err_velocity_clip_keeps_minimum (chi2 vels : list R) (dof clip : R)
    (normalize : bool) :
  chi2 <> [] -> length vels = length chi2 -> 0 <= clip ->
  let chi2n := if normalize then map (fun c => c / dof) chi2 else chi2 in
  exists i c0 v0 y x,
    Err_velocity_data chi2 vels dof (Some clip) normalize = Some (y, x) /\
    chi2n !! i = Some c0 /\ vels !! i = Some v0 /\
    Forall (fun c => c0 <= c) chi2n /\
    c0 ∈ y /\ v0 ∈ x /\ length y = length x /\
    Forall (fun v => Rabs (v - v0) <= clip) x.
Proof.
  intros Hne Hlen Hclip chi2n.
  assert (Hlenn : length chi2n = length chi2).
  { unfold chi2n. destruct normalize; [apply length_map|done]. }
  destruct (argmin_spec chi2n) as (i & c0 & Harg & Hc0 & Hmin).
  { intros Hnil. rewrite Hnil in Hlenn. destruct chi2; done. }
  destruct (lookup_lt_is_Some_2 vels i) as [v0 Hv0].
  { rewrite Hlen, <- Hlenn. by eapply lookup_lt_Some. }
  set (inds := map (fun v => Rleb (Rabs (v - v0)) clip) vels).
  assert (Hinds : inds !! i = Some true).
  { unfold inds. rewrite list_lookup_fmap, Hv0. simpl. f_equal.
    unfold Rleb. destruct (Rle_dec _ _) as [|Hn]; [done|].
    exfalso. apply Hn. replace (v0 - v0) with 0 by ring.
    rewrite Rabs_R0. exact Hclip. }
  assert (Hli : length inds = length vels) by apply length_map.
  exists i, c0, v0, (mask_pick inds chi2n), (mask_pick inds vels).
  split.
  { unfold Err_velocity_data. fold chi2n. rewrite Harg. cbn [mbind option_bind].
    rewrite Hv0. cbn [mbind option_bind]. fold inds. unfold mask_index.
    assert (H1 : Nat.eqb (length inds) (length chi2n) = true)
      by (apply Nat.eqb_eq; lia).
    assert (H2 : Nat.eqb (length inds) (length vels) = true)
      by (apply Nat.eqb_eq; lia).
    rewrite H1. cbn [mbind option_bind]. rewrite H2. reflexivity. }
  split; [done|]. split; [done|]. split; [done|].
  split; [by eapply mask_pick_elem|]. split; [by eapply mask_pick_elem|].
  split; [apply mask_pick_length; lia|].
  eapply Forall_impl; [apply mask_pick_map|].
  intros v Hv. simpl in Hv. unfold Rleb in Hv.
  by destruct (Rle_dec _ _).
Qed.

End ErrVelocity.

(** The two theorems on [Err_velocity] at three points of the parabola
    [v² + 1]. *)
Lemma Err_velocity_parabola_witness :
  exists chi2fit vfit err_vfit : R,
    Err_velocity (fun _ _ => (1, 0, 1)%R) [2; 1; 2]%R [-1; 0; 1]%R 1%R None
      false false = Some (chi2fit, vfit, err_vfit) /\
    (forall v, (chi2fit <= poly1d (1, 0, 1) v)%R).
Proof.
  destruct (Err_velocity_parabola (fun _ _ => (1, 0, 1)%R)
              [2; 1; 2]%R [-1; 0; 1]%R 1%R None false
              [2; 1; 2]%R [-1; 0; 1]%R 1%R 0%R 1%R eq_refl eq_refl Rlt_0_1)
    as (c & v & e & Hrun & _ & Hmin & _).
  exists c, v, e. split; [exact Hrun|exact Hmin].
Defined.

Lemma Err_velocity_clip_keeps_minimum_witness :
  exists y x : list R,
    Err_velocity_data [2; 1; 2]%R [-1; 0; 1]%R 1%R (Some (1 / 2)%R) false
      = Some (y, x) /\ length y = length x.
Proof.
  destruct (Err_velocity_clip_keeps_minimum
              [2; 1; 2]%R [-1; 0; 1]%R 1%R (1 / 2)%R false)
    as (i & c0 & v0 & y & x & Hrun & _ & _ & _ & _ & _ & Hlen & _).
  - discriminate.
  - reflexivity.
  - lra.
  - exists y, x. split; [exact Hrun|exact Hlen].
Defined.

Lemma Err_velocity_redchi2_unity_witness :
  exists chi2fit vfit err_vfit : R,
    Err_velocity (fun _ _ => (1, 0, 1)%R) [2; 1; 2]%R [-1; 0; 1]%R 1%R None
      false true = Some (chi2fit, vfit, err_vfit) /\
    (0 <= err_vfit)%R.
Proof.
  destruct (Err_velocity_redchi2_unity (fun _ _ => (1, 0, 1)%R)
              [2; 1; 2]%R [-1; 0; 1]%R 1%R None false
              [2; 1; 2]%R [-1; 0; 1]%R 1%R 0%R 1%R eq_refl eq_refl Rlt_0_1)
    as (c & v & e & Hrun & _ & Hpos & _).
  - unfold poly1d. replace (-0.5 * 0 / 1)%R with 0%R by lra. lra.
  - exists c, v, e. split; [exact Hrun|exact Hpos].
Defined.

(** * The loop of [Radius] on binary64

    The C++ body runs on [double]: a step can overflow or be NaN, and both
    comparisons of the loop are false on NaN.  The statements below are
    about [b64_arith]. *)

Section Binary64Loop.
Local Open Scope float_scope.

(** Comparisons of binary64: the other order, or one side is NaN. *)
Lemma SFcompare_antisym (x y : spec_float) :
  SFcompare y x = option_map CompOpp (SFcompare x y).
Proof.
  destruct x as [sx|sx| |sx mx ex], y as [sy|sy| |sy my ey]; simpl;
    try reflexivity; try (destruct sx; reflexivity);
    try (destruct sy; reflexivity); try (destruct sx, sy; reflexivity).
  destruct sx, sy; simpl; try reflexivity; f_equal;
    rewrite (Z.compare_antisym ex ey); destruct (ex ?= ey)%Z; simpl;
    try reflexivity;
    rewrite (Pos.compare_cont_antisym mx my Eq); simpl;
    try reflexivity;
    destruct (Pos.compare_cont Eq my mx); reflexivity.
Qed.

Lemma b64_not_lt (a b : float) :
  (a <? b) = false -> (b <=? a) = true \/ a = nan \/ b = nan.
Proof.
  rewrite ltb_spec, leb_spec. unfold SFltb, SFleb.
  rewrite (SFcompare_antisym (Prim2SF a) (Prim2SF b)).
  destruct (SFcompare (Prim2SF a) (Prim2SF b)) as [[]|] eqn:Hc; simpl;
    try (by left); try done.
  intros _. right.
  destruct (Prim2SF a) eqn:Ha, (Prim2SF b) eqn:Hb; simpl in Hc;
    try discriminate.
  all: try (left; apply Prim2SF_inj; rewrite Ha; reflexivity).
  all: try (right; apply Prim2SF_inj; rewrite Hb; reflexivity).
Qed.

Lemma b64_le_not_lt (a b : float) : (a <=? b) = true -> (b <? a) = false.
Proof.
  rewrite ltb_spec, leb_spec. unfold SFltb, SFleb.
  rewrite (SFcompare_antisym (Prim2SF a) (Prim2SF b)).
  by destruct (SFcompare (Prim2SF a) (Prim2SF b)) as [[]|].
Qed.

Lemma b64_lt_not_lt (a b : float) : (a <? b) = true -> (b <? a) = false.
Proof.
  rewrite !ltb_spec. unfold SFltb.
  rewrite (SFcompare_antisym (Prim2SF a) (Prim2SF b)).
  by destruct (SFcompare (Prim2SF a) (Prim2SF b)) as [[]|].
Qed.

Lemma b64_abs_nan (a : float) : abs a = nan -> a = nan.
Proof.
  intros Ha. apply Prim2SF_inj. apply (f_equal Prim2SF) in Ha.
  rewrite abs_spec in Ha. change (Prim2SF nan) with S754_nan in *.
  destruct (Prim2SF a); simpl in Ha; try discriminate. reflexivity.
Qed.

Lemma b64_zero_not_nan : (0 : float) <> nan.
Proof. intros Heq. apply (f_equal Prim2SF) in Heq. discriminate. Qed.

Lemma b64_epsilon_not_nan : epsilon (F := float) <> nan.
Proof. intros Heq. apply (f_equal Prim2SF) in Heq. discriminate. Qed.

(** Half of a radius that is not negative is not negative: the product
    keeps the sign whatever the rounding does. *)
Lemma b64_half_not_negative (r : float) :
  (r <? 0) = false -> (0.5 * r <? 0) = false.
Proof.
  rewrite !ltb_spec, mul_spec.
  change (Prim2SF 0) with (S754_zero false).
  change (Prim2SF 0.5) with (S754_finite false 4503599627370496 (-53)).
  destruct (Prim2SF r) as [s|s| |s m e]; simpl; try reflexivity.
  - destruct s; [discriminate|reflexivity].
  - destruct s; [discriminate|]. intros _.
    unfold SF64mul, SFmul. simpl xorb. unfold binary_round_aux.
    destruct (shr_fexp _ _ _ _ _) as [mrs' e'].
    destruct (shr_fexp _ _ _ _ _) as [mrs'' e''].
    destruct (shr_m mrs''); [reflexivity| |reflexivity].
    destruct (Z.leb _ _); reflexivity.
Qed.

(** The guard of the loop, on binary64. *)
Lemma Radius_update_b64 (r dr : float) :
  ((r - dr <? 0) = true /\ Radius_update r dr = 0.5 * r) \/
  ((r - dr <? 0) = false /\ Radius_update r dr = r - dr).
Proof.
  unfold Radius_update.
  change (ltb (sub r dr) (lit 0)) with (r - dr <? 0).
  destruct (r - dr <? 0); [left|right]; split; reflexivity.
Qed.

Lemma Radius_update_nan_b64 (r : float) : Radius_update r nan = nan.
Proof.
  unfold Radius_update. change (sub r nan) with (r - nan).
  rewrite b64_sub_nan. reflexivity.
Qed.

(** The loop test is false on a step exactly when the step is within the
    tolerance or is not a number. *)
Lemma loop_test_false_b64 (dr : float) :
  (fabs dr >? epsilon)%A = false ->
  (abs dr <=? epsilon) = true \/ dr = nan.
Proof.
  intros Ht. change ((epsilon <? abs dr) = false) in Ht.
  destruct (b64_not_lt _ _ Ht) as [Hle|[He|Ha]].
  - by left.
  - by destruct b64_epsilon_not_nan.
  - right. by apply b64_abs_nan.
Qed.

(** The guard keeps a radius that is not negative from becoming negative. *)
Lemma guard_keeps_not_negative_b64
    (cosx cosy cosz psi0 q qp1by2om2 : float)
    (log : list (float * float * float)) (r : float) :
  (r <? 0) = false -> chained r log ->
  Forall (Newton_pass cosx cosy cosz psi0 q qp1by2om2) log ->
  Forall (fun e : float * float * float =>
    let '(r, dr, r') := e in
    (((r - dr <? 0) = true /\ r' = 0.5 * r) \/
     ((r - dr <? 0) = false /\ r' = r - dr)) /\
    (r' <? 0) = false /\
    ((0 <=? r') = true \/ r' = nan)) log.
Proof.
  revert r; induction log as [|[[r1 dr] r1'] log IH]; intros r Hr Hch Hok;
    [done|].
  destruct Hch as [-> Hch]. apply Forall_cons in Hok as [[_ Hup] Hok].
  assert (Hcase : ((r - dr <? 0) = true /\ r1' = 0.5 * r) \/
                  ((r - dr <? 0) = false /\ r1' = r - dr)).
  { rewrite Hup. apply Radius_update_b64. }
  assert (Hnn : (r1' <? 0) = false).
  { destruct Hcase as [[_ ->]|[Hge ->]];
      [by apply b64_half_not_negative|exact Hge]. }
  constructor; [|by apply (IH r1')].
  split; [exact Hcase|]. split; [exact Hnn|].
  destruct (b64_not_lt _ _ Hnn) as [Hle|[Hn|Hz]]; [by left|by right|].
  by destruct b64_zero_not_nan.
Qed.

(** C1, as stated, fails.  [Radius(0., 0., 1., -1., 0.14, 56., 28.5)]
    starts from [r0 = 0.14 > 0] along a unit direction with a target
    [psi0 = −1] that the potential does not reach.  The radius grows until
    [z*z] overflows; on pass 32 the step is not a number, the loop test is
    false on it, and the loop is left with a result that is NaN: the last
    step does not satisfy [|dr| <= 1e-5] and the result is not the
    sentinel. *)
Lemma Radius_exit_neither_converged_nor_capped_b64 :
  exists v log rk drk,
    (0 <? dec (F := float) 14 2) = true /\
    Radius 0 0 1 (-1) (dec 14 2) 56 28.5 = Some v /\
    Radius_run Radius_fuel 0 0 1 (-1) 56 28.5 0 (dec 14 2) = Some (v, log) /\
    length log = 32%nat /\
    last log = Some (rk, drk, v) /\
    (abs drk <=? epsilon) = false /\
    v = nan /\ v <> sentinel.
Proof.
  let r := eval vm_compute in
    (Radius_run (F := float) Radius_fuel 0 0 1 (-1) 56 28.5 0 (dec 14 2)) in
  match r with
  | Some (?v, ?log) =>
      let l := eval vm_compute in (last log) in
      match l with
      | Some (?rk, ?drk, _) => exists v, log, rk, drk
      end
  end.
  repeat split; try (vm_compute; reflexivity).
  intros Heq. apply (f_equal Prim2SF) in Heq. vm_compute in Heq. discriminate.
Qed.

(** C1, amended.  The step of a pass is the Newton quotient
    [dr = (psi − psi0)/dpsidr] on the sample of [Potential] along the
    direction (the formula, in real arithmetic).  On binary64, from every
    direction, target, starting radius and parameters, [Radius] returns
    after at most [nmax = 50] passes; a pass halves [r] when
    [(r − dr) < 0.0] holds and takes [r − dr] otherwise.  The run ends in
    one of three ways: the last pass made a step with [|dr| <= 0.00001]
    and its radius is the result; or the last pass made a step that is not
    a number, and the result is NaN; or all 50 passes made a step above
    the tolerance and the result is the sentinel [−99.99], set on entering
    pass 51 before any evaluation. *)
Theorem Radius_exits_b64 :
  (forall cosx cosy cosz psi0 r q qp1by2om2 : R,
     Radius_dr cosx cosy cosz psi0 r q qp1by2om2
     = ((psi_of (Potential (r * cosx) (r * cosy) (r * cosz) q qp1by2om2)
         - psi0)
        / dpsidr_of cosx cosy cosz
            (Potential (r * cosx) (r * cosy) (r * cosz) q qp1by2om2))%R) /\
  epsilon (F := float) = 0x1.4f8b588e368f1p-17 /\
  sentinel (F := float) = -0x1.8ff5c28f5c28fp+6 /\
  forall cosx cosy cosz psi0 r0 q qp1by2om2 : float,
  exists v log,
    Radius cosx cosy cosz psi0 r0 q qp1by2om2 = Some v /\
    Radius_run Radius_fuel cosx cosy cosz psi0 q qp1by2om2 0 r0
      = Some (v, log) /\
    chained r0 log /\
    Forall (fun e : float * float * float =>
      let '(r, dr, r') := e in
      dr = Radius_dr cosx cosy cosz psi0 r q qp1by2om2 /\
      (((r - dr <? 0) = true /\ r' = 0.5 * r) \/
       ((r - dr <? 0) = false /\ r' = r - dr))) log /\
    (length log <= 50)%nat /\
    ((exists pre rk drk,
        log = pre ++ [(rk, drk, v)] /\
        Forall (fun e : float * float * float =>
                  let '(_, dr, _) := e in (epsilon <? abs dr) = true) pre /\
        ((abs drk <=? epsilon) = true \/ (drk = nan /\ v = nan)))
     \/ (v = sentinel /\ length log = 50%nat /\
         Forall (fun e : float * float * float =>
                   let '(_, dr, _) := e in (epsilon <? abs dr) = true) log)).
Proof.
  split; [exact Radius_dr_Potential|].
  split; [exact epsilon_b64|]. split; [exact sentinel_b64|].
  intros cosx cosy cosz psi0 r0 q qp1by2om2.
  destruct (Radius_returns cosx cosy cosz psi0 q qp1by2om2 r0)
    as (v & log & Hrun & Hret).
  exists v, log. split; [done|]. split; [done|].
  destruct (Radius_run_shape _ _ _ _ _ _ _ _ _ _ _ Hrun) as (Hch & Hok & Hend).
  split; [done|]. split.
  { eapply Forall_impl; [exact Hok|]. intros [[r dr] r'] [Hdr ->].
    split; [exact Hdr|apply Radius_update_b64]. }
  assert (Habove : forall l : list (float * float * float),
    Forall (fun e => step_above e = true) l ->
    Forall (fun e : float * float * float =>
              let '(_, dr, _) := e in (epsilon <? abs dr) = true) l).
  { intros l Hl. eapply Forall_impl; [exact Hl|]. by intros [[r dr] r']. }
  destruct Hend as [(pre & rk & drk & -> & Hpre & Hlast & Hlen)
                   |(-> & Hall & Hlen)]; unfold nmax in Hlen.
  - split; [lia|]. left. exists pre, rk, drk.
    split; [done|]. split; [by apply Habove|].
    destruct (loop_test_false_b64 drk Hlast) as [Hle|Hnan]; [by left|].
    right. split; [exact Hnan|].
    apply Forall_app in Hok as [_ Hok].
    apply Forall_cons in Hok as [[_ Hv] _].
    rewrite Hv, Hnan. apply Radius_update_nan_b64.
  - split; [lia|]. right. split; [done|]. split; [lia|by apply Habove].
Qed.

(** C3, as stated, fails.  In the run of
    [Radius(0., 0., 1., -1., 0.14, 56., 28.5)], which starts from
    [r0 = 0.14 > 0], the radius after pass 32 is NaN: it is not
    non-negative, and it is the value returned. *)
Lemma Radius_iterate_not_a_number_b64 :
  exists v log rk drk r',
    (0 <? dec (F := float) 14 2) = true /\
    Radius_run Radius_fuel 0 0 1 (-1) 56 28.5 0 (dec 14 2) = Some (v, log) /\
    last log = Some (rk, drk, r') /\
    (0 <=? r') = false /\ r' = nan.
Proof.
  let r := eval vm_compute in
    (Radius_run (F := float) Radius_fuel 0 0 1 (-1) 56 28.5 0 (dec 14 2)) in
  match r with
  | Some (?v, ?log) =>
      let l := eval vm_compute in (last log) in
      match l with
      | Some (?rk, ?drk, ?r') => exists v, log, rk, drk, r'
      end
  end.
  repeat split; vm_compute; reflexivity.
Qed.

(** C3, amended.  On binary64, started from [r0 > 0], the radius is never
    negative after a pass of [Radius]: it is non-negative or it is NaN.  A
    pass whose Newton update [r − dr] tests negative halves [r], every
    other pass takes [r − dr]; NaN comes out of a pass only as [r − dr].
    The value returned is the radius of the last pass as the pass left
    it, or the sentinel when the cap was reached; nothing is clamped
    afterwards. *)
Theorem Radius_iterates_not_negative_b64
    (cosx cosy cosz psi0 r0 q qp1by2om2 : float) :
  (0 <? r0) = true ->
  exists v log,
    Radius cosx cosy cosz psi0 r0 q qp1by2om2 = Some v /\
    Radius_run Radius_fuel cosx cosy cosz psi0 q qp1by2om2 0 r0
      = Some (v, log) /\
    chained r0 log /\
    Forall (fun e : float * float * float =>
      let '(r, dr, r') := e in
      (((r - dr <? 0) = true /\ r' = 0.5 * r) \/
       ((r - dr <? 0) = false /\ r' = r - dr)) /\
      (r' <? 0) = false /\
      ((0 <=? r') = true \/ r' = nan)) log /\
    ((exists pre rk drk, log = pre ++ [(rk, drk, v)]) \/ v = sentinel).
Proof.
  intros Hr0.
  destruct (Radius_returns cosx cosy cosz psi0 q qp1by2om2 r0)
    as (v & log & Hrun & Hret).
  exists v, log. split; [done|]. split; [done|].
  destruct (Radius_run_shape _ _ _ _ _ _ _ _ _ _ _ Hrun) as (Hch & Hok & Hend).
  split; [done|]. split.
  { apply (guard_keeps_not_negative_b64 cosx cosy cosz psi0 q qp1by2om2 log r0);
      [by apply b64_lt_not_lt|done|done]. }
  destruct Hend as [(pre & rk & drk & -> & _)|(-> & _)].
  - left. by exists pre, rk, drk.
  - by right.
Qed.

Lemma Radius_iterates_not_negative_b64_witness :
  (0 <? 0.125) = true /\
  exists v log,
    Radius_run Radius_fuel (-1) 0 0 5454 56 28.5 0 (0.125) = Some (v, log) /\
    Forall (fun e : float * float * float =>
              let '(_, _, r') := e in (r' <? 0) = false) log.
Proof.
  assert (Hr0 : (0 <? 0.125) = true) by (vm_compute; reflexivity).
  split; [exact Hr0|].
  destruct (Radius_iterates_not_negative_b64 (-1) 0 0 5454 (0.125) 56 28.5
              Hr0) as (v & log & _ & Hrun & _ & Hall & _).
  exists v, log. split; [exact Hrun|].
  eapply Forall_impl; [exact Hall|]. intros [[r dr] r'] (_ & Hr' & _). exact Hr'.
Defined.

(** X3. On binary64, started from [r0 >= 0], [Radius] returns the
    sentinel [−99.99], a value that is not negative, or NaN: a negative
    result always means that the cap was reached. *)
Theorem Radius_sentinel_nonnegative_or_nan_b64
    (cosx cosy cosz psi0 r0 q qp1by2om2 : float) :
  (0 <=? r0) = true ->
  exists v,
    Radius cosx cosy cosz psi0 r0 q qp1by2om2 = Some v /\
    (v = sentinel \/ (0 <=? v) = true \/ v = nan) /\
    ((v <? 0) = true -> v = sentinel).
Proof.
  intros Hr0.
  destruct (Radius_returns cosx cosy cosz psi0 q qp1by2om2 r0)
    as (v & log & Hrun & Hret).
  exists v. split; [done|].
  destruct (Radius_run_shape _ _ _ _ _ _ _ _ _ _ _ Hrun) as (Hch & Hok & Hend).
  pose proof (guard_keeps_not_negative_b64 _ _ _ _ _ _ _ _
                (b64_le_not_lt _ _ Hr0) Hch Hok) as Hall.
  destruct Hend as [(pre & rk & drk & -> & _)|(-> & _)].
  - apply Forall_app in Hall as [_ Hlast].
    apply Forall_cons in Hlast as [(_ & Hnn & Hv) _].
    split; [by right|]. intros Hneg. rewrite Hnn in Hneg. discriminate.
  - split; [by left|done].
Qed.

Lemma Radius_sentinel_nonnegative_or_nan_b64_witness :
  (0 <=? 0.125) = true /\
  exists v,
    Radius (-1) 0 0 5454 (0.125) 56 28.5 = Some v /\
    (v = sentinel \/ (0 <=? v) = true \/ v = nan).
Proof.
  assert (Hr0 : (0 <=? 0.125) = true) by (vm_compute; reflexivity).
  split; [exact Hr0|].
  destruct (Radius_sentinel_nonnegative_or_nan_b64 (-1) 0 0 5454 (0.125)
              56 28.5 Hr0) as (v & Hv & Hcase & _).
  exists v. split; [exact Hv|exact Hcase].
Defined.

End Binary64Loop.
